(** * A minimal IRC server: message codec, state registry and the
      registration handlers.

    Shallow embedding of [irc/message.go], [irc/state.go] and
    [irc/handler_fresh.go].  Go strings are byte strings ([string]), Go
    [int]s are [Z], Go maps are [gmap]s, Go pointers are locations into an
    object store, and a run-time panic (nil dereference, index out of
    range) is the [None] of the [option] monad. *)

From Stdlib Require Import ZArith String Ascii List Lia.
From stdpp Require Import base option gmap strings list fin_maps.

Local Open Scope string_scope.

(** ** Go primitives *)

(** [len] on a string or a slice, as a Go [int]. *)
Definition len_string (s : string) : Z := Z.of_nat (String.length s).
Definition len_slice {A} (l : list A) : Z := Z.of_nat (length l).

(** [s[i]]: indexing a slice; out of range is a panic. *)
Definition index_slice {A} (l : list A) (i : Z) : option A :=
  if decide (i < 0)%Z then None else l !! Z.to_nat i.

(** [s[i]]: indexing a string yields the byte at [i]; out of range is a
    panic. *)
Definition index_string (s : string) (i : Z) : option ascii :=
  if decide (i < 0)%Z then None else String.get (Z.to_nat i) s.

(** [strings.Contains(s, substr)]: [substr] occurs somewhere within [s]. *)
Fixpoint strings_Contains (s substr : string) : bool :=
  String.prefix substr s ||
  match s with
  | EmptyString => false
  | String _ s' => strings_Contains s' substr
  end.

(** ** irc/message.go *)

Record message := Message {
  prefix : string;
  command : string;
  params : list string;
  trailing : string
}.

Definition withParams (m : message) (ps : list string) : message :=
  {| prefix := prefix m; command := command m; params := ps;
     trailing := trailing m |}.

Definition withTrailing (m : message) (t : string) : message :=
  {| prefix := prefix m; command := command m; params := params m;
     trailing := t |}.

Definition withPrefix (m : message) (p : string) : message :=
  {| prefix := p; command := command m; params := params m;
     trailing := trailing m |}.

(** [laxTrailing]: the trailing portion of a message or its last
    parameter. *)
Definition laxTrailing (m : message) (minIndex : Z) : option string :=
  if decide (trailing m ≠ "") then Some (trailing m)
  else
    let l := len_slice (params m) in
    if decide (l <= minIndex)%Z then Some ""
    else index_slice (params m) (l - 1)%Z.

(** The parameter loop of [toString]: [None] is the early
    [return "", false]. *)
Fixpoint toString_params (ps : list string) (msg : string) : option string :=
  match ps with
  | [] => Some msg
  | param :: ps' =>
      if strings_Contains param " " then None
      else toString_params ps' (msg +:+ " " +:+ param)
  end.

Definition toString (m : message) : string * bool :=
  if decide (command m = "") then ("", false)
  else
    let msg := if decide (0 < len_string (prefix m))%Z
               then ":" +:+ prefix m +:+ " " else "" in
    let msg := msg +:+ command m in
    match toString_params (params m) msg with
    | None => ("", false)
    | Some msg =>
        let msg := if decide (trailing m ≠ "")
                   then msg +:+ " :" +:+ trailing m else msg in
        (msg +:+ String "013" (String "010" ""), true)
    end.

(** *** The wire format, as the specification words it *)

Definition CRLF : string := String "013" (String "010" "").

(** A parameter contains a space when the space byte is one of its bytes. *)
Definition has_space (p : string) : Prop :=
  In " "%char (list_ascii_of_string p).

(** Each middle parameter prefixed by one space. *)
Fixpoint render_params (ps : list string) : string :=
  match ps with
  | [] => ""
  | p :: ps' => " " +:+ p +:+ render_params ps'
  end.

Definition render (m : message) : string :=
  (if decide (prefix m = "") then "" else ":" +:+ prefix m +:+ " ")
  +:+ command m
  +:+ render_params (params m)
  +:+ (if decide (trailing m = "") then "" else " :" +:+ trailing m)
  +:+ CRLF.

(** ** irc/config.go *)

Record SSLCertificate := {
  KeyFile : string;
  CertFile : string
}.

Record Config := {
  Name : string;
  Network : string;
  Port : Z;
  SSLPort : Z;
  PingFrequency : Z;
  PongMaxLatency : Z;
  SSLCertificate_ : SSLCertificate
}.

(** ** Pointers and objects *)

(** A non-nil pointer is a location; [nil] is [None]. *)
Definition loc := positive.
Definition ptr := option loc.
Definition nil : ptr := None.

(** A transport connection, known here only by its identity. *)
Definition connection := nat.

(** Modelled from the spec: the [user] and [channel] struct declarations
    are not part of the sources at hand; the fields are the ones that
    [state.go] and [handler_fresh.go] read and write ([nick], [user],
    [channels], [sink]; [name], [users]).  [channels] is a
    [map[*channel]bool] and [users] a [map[*user]bool]. *)
Record user := User {
  u_nick : string;
  u_user : string;
  u_channels : gmap loc bool;
  u_sink : option connection
}.

Record channel := Channel {
  c_name : string;
  c_users : gmap loc bool
}.

(** [m[k]] on a [map[K]bool]: a missing key reads as [false]. *)
Definition map_bool (m : gmap loc bool) (k : loc) : bool :=
  default false (m !! k).

(** [stateImpl] with the objects its pointers refer to: [s_config],
    [s_channels] and [s_users] are the three fields of the Go struct,
    [heap_users] and [heap_channels] hold every [user] and [channel] ever
    allocated (Go never frees an object that is still referenced). *)
Record stateImpl := StateImpl {
  s_config : Config;
  s_channels : gmap string loc;
  s_users : gmap string loc;
  heap_users : gmap loc user;
  heap_channels : gmap loc channel
}.

Definition set_s_channels (f : gmap string loc → gmap string loc)
    (s : stateImpl) : stateImpl :=
  {| s_config := s_config s; s_channels := f (s_channels s);
     s_users := s_users s; heap_users := heap_users s;
     heap_channels := heap_channels s |}.

Definition set_s_users (f : gmap string loc → gmap string loc)
    (s : stateImpl) : stateImpl :=
  {| s_config := s_config s; s_channels := s_channels s;
     s_users := f (s_users s); heap_users := heap_users s;
     heap_channels := heap_channels s |}.

Definition set_heap_users (f : gmap loc user → gmap loc user)
    (s : stateImpl) : stateImpl :=
  {| s_config := s_config s; s_channels := s_channels s;
     s_users := s_users s; heap_users := f (heap_users s);
     heap_channels := heap_channels s |}.

Definition set_heap_channels (f : gmap loc channel → gmap loc channel)
    (s : stateImpl) : stateImpl :=
  {| s_config := s_config s; s_channels := s_channels s;
     s_users := s_users s; heap_users := heap_users s;
     heap_channels := f (heap_channels s) |}.

Definition set_u_channels (f : gmap loc bool → gmap loc bool) (u : user)
    : user :=
  {| u_nick := u_nick u; u_user := u_user u;
     u_channels := f (u_channels u); u_sink := u_sink u |}.

Definition set_u_user (v : string) (u : user) : user :=
  {| u_nick := u_nick u; u_user := v;
     u_channels := u_channels u; u_sink := u_sink u |}.

Definition set_u_sink (c : connection) (u : user) : user :=
  {| u_nick := u_nick u; u_user := u_user u;
     u_channels := u_channels u; u_sink := Some c |}.

Definition set_c_users (f : gmap loc bool → gmap loc bool) (c : channel)
    : channel :=
  {| c_name := c_name c; c_users := f (c_users c) |}.

(** Dereferencing: [nil] faults. *)
Definition deref_user (s : stateImpl) (p : ptr) : option user :=
  l ← p; heap_users s !! l.


(** [&user{...}] and [&channel{...}]: a location no object lives at. *)
Definition new_user_loc (s : stateImpl) : loc := fresh (dom (heap_users s)).
Definition new_channel_loc (s : stateImpl) : loc :=
  fresh (dom (heap_channels s)).

(** ** irc/state.go *)

Definition newState (config : Config) : stateImpl :=
  {| s_config := config; s_channels := ∅; s_users := ∅;
     heap_users := ∅; heap_channels := ∅ |}.

Definition isValidNick (nick : string) : bool :=
  bool_decide (len_string nick <= 9)%Z.

Definition getConfig (s : stateImpl) : Config := s_config s.

Section Registry.

(** [lowercase] is declared in a file that is not part of the sources at
    hand; the registry is modelled over any such function. *)
Variable lowercase : string → string.

Definition getChannel (s : stateImpl) (name : string) : ptr :=
  s_channels s !! lowercase name.

Definition getUser (s : stateImpl) (nick : string) : ptr :=
  s_users s !! lowercase nick.

Definition newUser (s : stateImpl) (nick : string) : stateImpl * ptr :=
  let nickLower := lowercase nick in
  if decide (s_users s !! nickLower ≠ None) then (s, nil)
  else if negb (isValidNick nickLower) then (s, nil)
  else
    let u := new_user_loc s in
    let s := set_heap_users
               <[u := {| u_nick := nick; u_user := "";
                         u_channels := ∅; u_sink := None |}]> s in
    let s := set_s_users <[nickLower := u]> s in
    (s, Some u).

Definition newChannel (s : stateImpl) (name : string)
    : option (stateImpl * ptr) :=
  let name := lowercase name in
  if decide (s_channels s !! name ≠ None) then Some (s, nil)
  else
    b ← index_string name 0%Z;
    if decide (b ≠ "#"%char ∧ b ≠ "&"%char) then Some (s, nil)
    else
      let ch := new_channel_loc s in
      let s := set_heap_channels
                 <[ch := {| c_name := name; c_users := ∅ |}]> s in
      let s := set_s_channels <[name := ch]> s in
      Some (s, Some ch).

Definition recycleChannel (s : stateImpl) (channel : ptr)
    : option stateImpl :=
  match channel with
  | None => Some s
  | Some cl =>
      ch ← heap_channels s !! cl;
      if decide (size (c_users ch) ≠ 0) then Some s
      else Some (set_s_channels (delete (c_name ch)) s)
  end.

(** A [nil] user is looked up as a key first (and found absent); the
    fault comes at [user.channels]. *)
Definition joinChannel (s : stateImpl) (channel user : ptr)
    : option stateImpl :=
  cl ← channel;
  ch ← heap_channels s !! cl;
  if from_option (map_bool (c_users ch)) false user then Some s
  else
    ul ← user;
    u ← heap_users s !! ul;
    let s := set_heap_channels
               <[cl := set_c_users <[ul := true]> ch]> s in
    let s := set_heap_users
               <[ul := set_u_channels <[cl := true]> u]> s in
    Some s.

(** [delete(user.channels, channel)] accepts a [nil] key; the fault for
    a [nil] channel comes at [channel.users]. *)
Definition removeFromChannel (s : stateImpl) (channel user : ptr)
    : option stateImpl :=
  ul ← user;
  u ← heap_users s !! ul;
  let s := set_heap_users
             <[ul := set_u_channels
                       (from_option delete id channel) u]> s in
  cl ← channel;
  ch ← heap_channels s !! cl;
  if negb (map_bool (c_users ch) ul) then Some s
  else
    let s := set_heap_channels
               <[cl := set_c_users (delete ul) ch]> s in
    recycleChannel s channel.

Definition partChannel (s : stateImpl) (channel user : ptr)
    (reason : string) : option stateImpl :=
  removeFromChannel s channel user.

(** Modelled from the spec: [user.forChannels] is declared with the
    [user] struct, outside the sources at hand.  It visits every channel
    the user is joined to, that is every key of [user.channels]; the
    callback of [removeUser] deletes only the key being visited, so the
    keys visited are those present when the iteration starts.  [order]
    is the order in which the runtime happens to yield them. *)
Fixpoint forChannels (order : list loc)
    (callback : stateImpl → ptr → option stateImpl) (s : stateImpl)
    : option stateImpl :=
  match order with
  | [] => Some s
  | ch :: rest => s' ← callback s (Some ch); forChannels rest callback s'
  end.

Definition removeUser_in (order : list loc) (s : stateImpl) (user : ptr)
    : option stateImpl :=
  ul ← user;
  u ← heap_users s !! ul;
  s ← forChannels order
        (λ s ch, partChannel s ch user "QUITing") s;
  let nickLower := lowercase (u_nick u) in
  Some (set_s_users (delete nickLower) s).

Definition removeUser (s : stateImpl) (user : ptr) : option stateImpl :=
  u ← deref_user s user;
  removeUser_in (elements (dom (u_channels u))) s user.

(** *** Calls into the registry *)

(** [user.sink = conn] and [user.user = name], the two writes the
    handlers make to a user they hold. *)
Definition assign_sink (s : stateImpl) (user : ptr) (conn : connection)
    : option stateImpl :=
  ul ← user;
  u ← heap_users s !! ul;
  Some (set_heap_users <[ul := set_u_sink conn u]> s).

Definition assign_user (s : stateImpl) (user : ptr) (name : string)
    : option stateImpl :=
  ul ← user;
  u ← heap_users s !! ul;
  Some (set_heap_users <[ul := set_u_user name u]> s).

(** What the rest of the server does to the registry: the seven
    operations that change it, and the two field writes. *)
Inductive call :=
| CallNewUser (nick : string)
| CallRemoveUser (user : ptr)
| CallNewChannel (name : string)
| CallRecycleChannel (channel : ptr)
| CallJoinChannel (channel user : ptr)
| CallPartChannel (channel user : ptr) (reason : string)
| CallRemoveFromChannel (channel user : ptr)
| AssignSink (user : ptr) (conn : connection)
| AssignUser (user : ptr) (name : string).

(** The state a call leaves behind; [None] when it faults. *)
Definition exec (s : stateImpl) (c : call) : option stateImpl :=
  match c with
  | CallNewUser nick => Some (fst (newUser s nick))
  | CallRemoveUser u => removeUser s u
  | CallNewChannel name => fst <$> newChannel s name
  | CallRecycleChannel ch => recycleChannel s ch
  | CallJoinChannel ch u => joinChannel s ch u
  | CallPartChannel ch u reason => partChannel s ch u reason
  | CallRemoveFromChannel ch u => removeFromChannel s ch u
  | AssignSink u conn => assign_sink s u conn
  | AssignUser u name => assign_user s u name
  end.

Fixpoint exec_all (s : stateImpl) (cs : list call) : option stateImpl :=
  match cs with
  | [] => Some s
  | c :: cs' => s' ← exec s c; exec_all s' cs'
  end.

(** The states the registry can be in: those some sequence of calls
    produces from a new state. *)
Definition reachable (s : stateImpl) : Prop :=
  ∃ config cs, exec_all (newState config) cs = Some s.

(** *** Membership *)

Definition channel_has_user (s : stateImpl) (cl ul : loc) : Prop :=
  ∃ ch, heap_channels s !! cl = Some ch ∧ map_bool (c_users ch) ul = true.

Definition user_has_channel (s : stateImpl) (ul cl : loc) : Prop :=
  ∃ u, heap_users s !! ul = Some u ∧ map_bool (u_channels u) cl = true.

Definition symmetric (s : stateImpl) : Prop :=
  ∀ ul cl, channel_has_user s cl ul ↔ user_has_channel s ul cl.

(** *** The channel directory *)

(** A channel is registered under its own name. *)
Definition registered_by_name (s : stateImpl) : Prop :=
  ∀ k cl, s_channels s !! k = Some cl →
    ∃ ch, heap_channels s !! cl = Some ch ∧ c_name ch = k.

(** The name of a channel is a lowercase form and begins with [#] or
    [&]. *)
Definition channel_names_ok (s : stateImpl) : Prop :=
  ∀ cl ch, heap_channels s !! cl = Some ch →
    (∃ n, c_name ch = lowercase n) ∧
    (index_string (c_name ch) 0%Z = Some "#"%char ∨
     index_string (c_name ch) 0%Z = Some "&"%char).

Definition directory_ok (s : stateImpl) : Prop :=
  registered_by_name s ∧ channel_names_ok s.

End Registry.

(** ** irc/handler_fresh.go *)

(** Modelled from the spec: the command table ([cmdQuit], [cmdNick],
    [cmdUser]) is declared outside the sources at hand; the handlers
    compare only the [command] field, which is the protocol's command
    name. *)
Definition cmdQuit : message :=
  {| prefix := ""; command := "QUIT"; params := []; trailing := "" |}.
Definition cmdNick : message :=
  {| prefix := ""; command := "NICK"; params := []; trailing := "" |}.
Definition cmdUser : message :=
  {| prefix := ""; command := "USER"; params := []; trailing := "" |}.

(** The numeric replies the registration handlers send. *)
Inductive numeric :=
| errorNoNicknameGiven
| errorNicknameInUse
| errorNeedMoreParams.

(** Whom a reply is sent to: a bare connection or a user. *)
Inductive sink :=
| SinkConnection (c : connection)
| SinkUser (u : ptr).

(** Modelled from the spec: [sendNumeric], [sendMOTD] and
    [connection.kill] belong to the reply sender and to the transport,
    which are outside the sources at hand and opaque to the handlers; a
    call to one of them is recorded as an event and leaves the registry
    as it is. *)
Inductive event :=
| Kill (c : connection)
| SendNumeric (to : sink) (n : numeric)
| SendMOTD (u : ptr).

(** The handler a connection is in.  [userHandler] stands for the result
    of [newUserHandler], and [nullHandler] for the closed connection. *)
Inductive handler :=
| freshHandler
| freshUserHandler (user : ptr)
| userHandler (nick : string)
| nullHandler.

(** What handling one message yields: the next handler, the registry as
    it is handed back and the events emitted, or a fault. *)
Definition outcome : Type := option (handler * stateImpl * list event).

Section Handlers.

Variable lowercase : string → string.

Definition freshHandler_handleNick (conn : connection) (msg : message)
    (state : stateImpl) : outcome :=
  if decide (len_slice (params msg) < 1)%Z then
    Some (freshHandler, state,
          [SendNumeric (SinkConnection conn) errorNoNicknameGiven])
  else
    nick ← index_slice (params msg) 0%Z;
    let '(state, user) := newUser lowercase state nick in
    match user with
    | None =>
        Some (freshHandler, state,
              [SendNumeric (SinkConnection conn) errorNicknameInUse])
    | Some ul =>
        u ← heap_users state !! ul;
        let state := set_heap_users <[ul := set_u_sink conn u]> state in
        Some (freshUserHandler user, state, [])
    end.

Definition freshHandler_handle (conn : connection) (msg : message)
    (state : stateImpl) : outcome :=
  if decide (command msg = command cmdQuit) then
    Some (nullHandler, state, [Kill conn])
  else if decide (command msg ≠ command cmdNick) then
    Some (freshHandler, state, [])
  else freshHandler_handleNick conn msg state.

Definition freshHandler_closed (c : connection) (state : stateImpl)
    : option (stateImpl * list event) :=
  Some (state, [Kill c]).

Definition freshUserHandler_handleUser (user : ptr) (conn : connection)
    (msg : message) (state : stateImpl) : outcome :=
  trailing ← laxTrailing msg 3%Z;
  if decide ((len_slice (params msg) < 3)%Z ∨ trailing = "") then
    Some (freshUserHandler user, state,
          [SendNumeric (SinkUser user) errorNeedMoreParams])
  else
    ul ← user;
    u ← heap_users state !! ul;
    p0 ← index_slice (params msg) 0%Z;
    let u := set_u_user p0 u in
    let state := set_heap_users <[ul := u]> state in
    Some (userHandler (u_nick u), state, [SendMOTD user]).

Definition freshUserHandler_handle (user : ptr) (conn : connection)
    (msg : message) (state : stateImpl) : outcome :=
  if decide (command msg = command cmdQuit) then
    state ← removeUser lowercase state user;
    Some (nullHandler, state, [Kill conn])
  else if decide (command msg ≠ command cmdUser) then
    Some (freshUserHandler user, state, [])
  else freshUserHandler_handleUser user conn msg state.

Definition freshUserHandler_closed (user : ptr) (c : connection)
    (state : stateImpl) : option (stateImpl * list event) :=
  state ← removeUser lowercase state user;
  Some (state, [Kill c]).

End Handlers.

(** ** An instance of [lowercase] *)

(** ASCII letters folded to lower case, every other byte kept: the
    instance the model is run with on concrete inputs. *)
Definition lower_byte (c : ascii) : ascii :=
  let n := nat_of_ascii c in
  if (65 <=? n)%nat && (n <=? 90)%nat then ascii_of_nat (n + 32) else c.

Fixpoint ascii_lowercase (s : string) : string :=
  match s with
  | EmptyString => EmptyString
  | String c s' => String (lower_byte c) (ascii_lowercase s')
  end.

Definition config0 : Config :=
  {| Name := "irc.example"; Network := "example"; Port := 6667%Z;
     SSLPort := 6697%Z; PingFrequency := 30%Z; PongMaxLatency := 5%Z;
     SSLCertificate_ := {| KeyFile := ""; CertFile := "" |} |}.

(** *** What one call does to the channels *)

(** Every channel object stays allocated and keeps its name. *)
Definition names_kept (s s' : stateImpl) : Prop :=
  ∀ cl ch, heap_channels s !! cl = Some ch →
    ∃ ch', heap_channels s' !! cl = Some ch' ∧ c_name ch' = c_name ch.

(** A channel that had members before and has none after is no longer
    registered under its name. *)
Definition emptied_are_recycled (s s' : stateImpl) : Prop :=
  ∀ cl ch ch',
    heap_channels s !! cl = Some ch → heap_channels s' !! cl = Some ch' →
    size (c_users ch) ≠ 0 → size (c_users ch') = 0 →
    s_channels s' !! c_name ch' = None.

(** No channel is added to the directory. *)
Definition directory_shrinks (s s' : stateImpl) : Prop :=
  s_channels s' ⊆ s_channels s.


(** ** A concrete run *)

(** Alice registers, the channel [#Chan] is created, and she joins it. *)
Definition demo_calls : list call :=
  [CallNewUser "Alice"; CallNewChannel "#Chan";
   CallJoinChannel (Some 1%positive) (Some 1%positive)].

Definition demo_state : option stateImpl :=
  exec_all ascii_lowercase (newState config0) demo_calls.

Definition demo_registry : stateImpl :=
  default (newState config0) demo_state.

(** Alice as [demo_registry] holds her, and the channel she is in. *)
Definition demo_alice : user :=
  {| u_nick := "Alice"; u_user := ""; u_channels := {[1%positive := true]};
     u_sink := None |}.

Definition demo_chan : channel :=
  {| c_name := "#chan"; c_users := {[1%positive := true]} |}.

(** [USER alice 0 * :Alice A]. *)
Definition demo_user_message : message :=
  {| prefix := ""; command := "USER"; params := ["alice"; "0"; "*"];
     trailing := "Alice A" |}.

(** *** Messages the wire format can tell apart *)

(** A token holds no space, is not empty and does not begin with a
    colon: what stands for a command or a middle parameter on the wire
    without being taken for something else. *)
Definition starts_with_colon (s : string) : Prop := ∃ r, s = String ":" r.

Definition token (s : string) : Prop :=
  s ≠ "" ∧ ¬ has_space s ∧ ¬ starts_with_colon s.

Definition unambiguous (m : message) : Prop :=
  ¬ has_space (prefix m) ∧ token (command m) ∧ Forall token (params m).

(** What follows a token on the wire: a space, or the end of the line. *)
Definition space_or_end (r : string) : Prop :=
  (∃ r', r = String " " r') ∨ r = CRLF.

(** The line from the first middle parameter on. *)
Definition render_tail (ps : list string) (t : string) : string :=
  render_params ps
  +:+ (if decide (t = "") then "" else " :" +:+ t) +:+ CRLF.

(** *** Further invariants of the registry *)

(** The membership maps hold no [false] entry. *)
Definition entries_true (s : stateImpl) : Prop :=
  (∀ cl ch ul b,
     heap_channels s !! cl = Some ch → c_users ch !! ul = Some b → b = true) ∧
  (∀ ul u cl b,
     heap_users s !! ul = Some u → u_channels u !! cl = Some b → b = true).

(** Every user object stays allocated and keeps its nickname. *)
Definition nicks_kept (s s' : stateImpl) : Prop :=
  ∀ ul u, heap_users s !! ul = Some u →
    ∃ u', heap_users s' !! ul = Some u' ∧ u_nick u' = u_nick u.

Section MoreInvariants.
Variable lowercase : string → string.

(** A user is registered under the lowercase form of its nickname, which
    is at most nine bytes long. *)
Definition users_ok (s : stateImpl) : Prop :=
  ∀ k ul, s_users s !! k = Some ul →
    ∃ u, heap_users s !! ul = Some u ∧ lowercase (u_nick u) = k ∧
         (String.length k ≤ 9)%nat.

End MoreInvariants.




(** ** The alerting webhooks: api/alertmanager.go and web/alertmanager.go *)

(** [strings.Join(elems, sep)]. *)
Fixpoint strings_Join (elems : list string) (sep : string) : string :=
  match elems with
  | [] => ""
  | [x] => x
  | x :: rest => x +:+ sep +:+ strings_Join rest sep
  end.

(** [m[k]] on a [map[string]string]: a missing key reads as [""]. *)
Definition map_string (m : gmap string string) (k : string) : string :=
  default "" (m !! k).

(** The line feed of the Go string literals. *)
Definition LF : string := String "010" "".

Module auth.
(** The caller a request is authenticated as is declared in package
    [channels/auth], outside the sources at hand; the webhooks read its
    name and its capabilities. *)
Record Caller := {
  Name : string;
  Caps : list string
}.
End auth.

Module storage.
Section Message.
(** The kinds of sender of a stored message, of which the webhooks name
    [MessageSourceWebhook]. *)
Variable MessageSource : Type.

(** The message handed to the message store is declared in package
    [channels/storage], outside the sources at hand; these are the
    fields the webhooks fill in. *)
Record Message := {
  Source : MessageSource;
  From : string;
  To : string;
  Title : string;
  Text : string;
  Color : string;
  Markdown : string;
  Timestamp : Z
}.
End Message.
End storage.

Module gin.
(** A [gin.H] whose values are strings, as the webhooks build them. *)
Abbreviation H := (gmap string string).

(** The two ways the webhooks answer a request. *)
Inductive call :=
| AbortWithStatusJSON (code : Z) (obj : H)
| JSON (code : Z) (obj : H).
End gin.

(** What a webhook does to the outside, in the order it does it: an
    answer to the request, or a message handed to [store.Save].  Writes
    to the standard output are left out. *)
Inductive effect (MessageSource : Type) :=
| Respond (c : gin.call)
| Save (m : storage.Message MessageSource).
Arguments Respond {MessageSource} c.
Arguments Save {MessageSource} m.

Definition is_respond {S} (e : effect S) : bool :=
  match e with Respond _ => true | Save _ => false end.

Definition is_save {S} (e : effect S) : bool :=
  match e with Respond _ => false | Save _ => true end.

Definition fire : string :=
  String "240" (String "159" (String "148" (String "165" ""))).

Definition check_mark : string :=
  String "226" (String "156" (String "133" "")).

Module api.
Section Handler.

(** [time.Time], and the zero value of the store's [MessageSource]. *)
Variable Time : Type.
Variable MessageSource : Type.
Variable zeroSource : MessageSource.

Record alert := {
  alert_Status : string;
  alert_Labels : gmap string string;
  alert_Annotations : gmap string string;
  alert_StartsAt : Time;
  alert_EndsAt : Time;
  alert_GeneratorURL : string;
  alert_Fingerprint : string
}.

Record alertManagerMessage := {
  Version : string;
  GroupKey : string;
  Status : string;
  Receiver : string;
  GroupLabels : gmap string string;
  CommonLabels : gmap string string;
  CommonAnnotations : gmap string string;
  ExternalURL : string;
  Alerts : list alert
}.

(** The two [range] loops: [kvs] is the map in the order the runtime
    yields it. *)
Fixpoint append_pairs (kvs : list (string * string)) (text : string)
    : string :=
  match kvs with
  | [] => text
  | (k, v) :: rest =>
      if decide (k = "alertname" ∨ k = "severity")
      then append_pairs rest text
      else append_pairs rest (text +:+ k +:+ ":" +:+ v +:+ ",")
  end.

Definition text (labels annotations : list (string * string))
    (msg : alertManagerMessage) : string :=
  let text := if decide (Status msg = "firing") then fire else "" in
  let text := text +:+
    ("[" +:+ Status msg +:+ ":" +:+ Version msg +:+ "] "
     +:+ map_string (CommonLabels msg) "severity"
     +:+ " {" +:+ map_string (GroupLabels msg) "alertname"
     +:+ "}->labels{") in
  let text := append_pairs labels text in
  let text :=
    if decide (0 < size (CommonAnnotations msg))%nat
    then append_pairs annotations (text +:+ "}" +:+ LF +:+ "annotations{")
    else text in
  text +:+ "}".

(** [checkToken] is declared outside the sources at hand: [None] is its
    [ok = false], in which case the webhook returns at once.  [bindJSON]
    is what [c.BindJSON] yields, the decoded body or the text of its
    error (what gin itself writes to the response when binding fails is
    not recorded); [save] is [e.store.Save], [None] being its [nil]
    error; [now] is [time.Now().UnixNano()].  [None] is a panic. *)
Definition webhookAlertManager
    (checkToken : option auth.Caller)
    (bindJSON : alertManagerMessage + string)
    (labels annotations : list (string * string))
    (now : Z)
    (save : storage.Message MessageSource → option string)
    : option (list (effect MessageSource)) :=
  match checkToken with
  | None => Some []
  | Some caller =>
      if decide (length (auth.Caps caller) ≠ 1%nat) then
        Some [Respond
                (gin.AbortWithStatusJSON 500 {["error" := "caps invalid"]})]
      else
        match bindJSON with
        | inr err =>
            Some [Respond (gin.AbortWithStatusJSON 400 {["error" := err]})]
        | inl msg =>
            let text := text labels annotations msg in
            cap ← index_slice (auth.Caps caller) 0%Z;
            let m := {| storage.Source := zeroSource;
                        storage.From := auth.Name caller;
                        storage.To := cap;
                        storage.Title := "";
                        storage.Text := text;
                        storage.Color := "";
                        storage.Markdown := "";
                        storage.Timestamp := now |} in
            match save m with
            | Some err =>
                Some [Save m;
                      Respond (gin.AbortWithStatusJSON 500
                                 {["error" := err]})]
            | None =>
                Some [Save m;
                      Respond (gin.JSON 200 {["status" := "success"]})]
            end
        end
  end.

End Handler.
End api.

Module web.

Definition getStatusEmoji (status : string) : string :=
  if decide (status = "firing") then fire
  else if decide (status = "resolved") then check_mark
  else status.

(** The [range] loop over the common labels: [kvs] is the map in the
    order the runtime yields it, [labels] the slice appended to. *)
Fixpoint collect_labels (kvs : list (string * string))
    (labels : list string) : list string :=
  match kvs with
  | [] => labels
  | (k, v) :: rest =>
      if decide (k = "alertname" ∨ k = "severity")
      then collect_labels rest labels
      else collect_labels rest (labels ++ [k +:+ "=" +:+ v])
  end.

(** What is stored under the key [caller] of the request: a pointer to a
    caller, possibly [nil], or a value of another type. *)
Inductive ctx_value :=
| CallerPointer (p : option auth.Caller)
| OtherValue.

Section Handler.

(** [promtemplate.Data] belongs to the Alertmanager library; of a decoded
    body the webhook itself reads the status, the three label sets and
    the external URL. *)
Variable Data : Type.
Variable Status : Data → string.
Variable GroupLabels CommonLabels CommonAnnotations :
  Data → gmap string string.
Variable ExternalURL : Data → string.

(** A parsed [text/template], and what executing one on a body writes and
    returns ([None] is the [nil] error). *)
Variable template : Type.
Variable execute : template → Data → string * option string.

Variable MessageSource : Type.
Variable MessageSourceWebhook : MessageSource.

Definition text (labels : list (string * string)) (msg : Data) : string :=
  let text :=
    getStatusEmoji (Status msg) +:+ " ["
    +:+ map_string (GroupLabels msg) "alertname" +:+ "] is "
    +:+ map_string (CommonLabels msg) "severity" +:+ ": "
    +:+ map_string (CommonAnnotations msg) "summary" +:+ LF
    +:+ "( " +:+ ExternalURL msg +:+ " )" +:+ LF in
  let labels := collect_labels labels [] in
  text +:+ ("labels{" +:+ strings_Join labels "," +:+ "}").

(** [caller] is what [c.Get] finds under the key [caller], [None] when
    there is nothing; [titleTemplate] and [contentTemplate] are what
    parsing the two template texts yields, the template or an error;
    the other arguments are as for the API webhook.  [None] is a
    panic. *)
Definition webhookAlertManager
    (caller : option ctx_value)
    (bindJSON : Data + string)
    (labels : list (string * string))
    (titleTemplate contentTemplate : template + string)
    (now : Z)
    (save : storage.Message MessageSource → option string)
    : option (list (effect MessageSource)) :=
  match caller with
  | None =>
      Some [Respond
              (gin.AbortWithStatusJSON 403 {["error" := "caller not found"]})]
  | Some OtherValue => None
  | Some (CallerPointer None) => None
  | Some (CallerPointer (Some caller)) =>
      if decide (length (auth.Caps caller) ≠ 1%nat) then
        Some [Respond
                (gin.AbortWithStatusJSON 500 {["error" := "caps invalid"]})]
      else
        match bindJSON with
        | inr err =>
            Some [Respond (gin.AbortWithStatusJSON 400 {["error" := err]})]
        | inl msg =>
            let text := text labels msg in
            match titleTemplate, contentTemplate with
            | inr _, _ => None
            | inl _, inr _ => None
            | inl titleTemplate, inl contentTemplate =>
                let tpl := "" in
                let '(out, err) := execute titleTemplate msg in
                let tpl := tpl +:+ out in
                match err with
                | Some err =>
                    Some [Respond
                            (gin.AbortWithStatusJSON 500 {["error" := err]})]
                | None =>
                    let title := tpl in
                    let '(out, err) := execute contentTemplate msg in
                    let tpl := tpl +:+ out in
                    match err with
                    | Some err =>
                        Some [Respond
                                (gin.AbortWithStatusJSON 500
                                   {["error" := err]})]
                    | None =>
                        let markdown := tpl in
                        cap ← index_slice (auth.Caps caller) 0%Z;
                        let m :=
                          {| storage.Source := MessageSourceWebhook;
                             storage.From := auth.Name caller;
                             storage.To := cap;
                             storage.Title := title;
                             storage.Text := text;
                             storage.Color := "#2eb886";
                             storage.Markdown := markdown;
                             storage.Timestamp := now |} in
                        match save m with
                        | Some err =>
                            Some [Save m;
                                  Respond (gin.AbortWithStatusJSON 500
                                             {["error" := err]})]
                        | None =>
                            Some [Save m;
                                  Respond (gin.JSON 200
                                             {["status" := "success"]})]
                        end
                    end
                end
            end
        end
  end.

End Handler.
End web.

(** ** More concrete inputs *)

(** Alice is registered and [#Chan] exists, but she has not joined. *)
Definition demo_unjoined : stateImpl :=
  default (newState config0)
    (exec_all ascii_lowercase (newState config0)
       [CallNewUser "Alice"; CallNewChannel "#Chan"]).

Definition demo_channel : channel := {| c_name := "#chan"; c_users := ∅ |}.

Definition demo_newcomer : user :=
  {| u_nick := "Alice"; u_user := ""; u_channels := ∅; u_sink := None |}.

Definition demo_caller : auth.Caller :=
  {| auth.Name := "prometheus"; auth.Caps := ["#alerts"] |}.

Definition demo_labels : gmap string string :=
  <["alertname" := "DiskFull"]>
    (<["severity" := "page"]> (<["job" := "node"]> ∅)).

Definition demo_alert : api.alertManagerMessage unit :=
  {| api.Version := "4"; api.GroupKey := "{}"; api.Status := "firing";
     api.Receiver := "irc"; api.GroupLabels := {["alertname" := "DiskFull"]};
     api.CommonLabels := demo_labels; api.CommonAnnotations := ∅;
     api.ExternalURL := "http://alertmanager"; api.Alerts := [] |}.

(** A store that accepts every message. *)
Definition demo_save (m : storage.Message bool) : option string := None.

(** Templates that write their own text. *)
Definition demo_execute (t : string) (msg : api.alertManagerMessage unit)
    : string * option string := (t, None).

(** ** Facts about the primitives *)

Lemma prefix_space (s : string) :
  String.prefix " " s = true ↔ ∃ s', s = String " " s'.
Proof.
  destruct s as [|a s]; cbn [String.prefix].
  - split; [discriminate | intros [? ?]; discriminate].
  - destruct (Ascii.ascii_dec " " a) as [<-|Hne].
    + split; [eauto | by destruct s].
    + split; [discriminate | intros [s' [=]]; congruence].
Qed.

Lemma strings_Contains_space (p : string) :
  strings_Contains p " " = true ↔ has_space p.
Proof.
  unfold has_space. induction p as [|a p IH].
  - simpl. split; [discriminate | tauto].
  - cbn [strings_Contains list_ascii_of_string].
    rewrite orb_true_iff, IH, prefix_space. simpl. split.
    + intros [[s' [= -> _]] | H]; auto.
    + intros [-> | H]; eauto.
Qed.

Lemma append_cons (x : ascii) (a b : string) :
  String x a +:+ b = String x (a +:+ b).
Proof. reflexivity. Qed.

Lemma append_nil_l (a : string) : "" +:+ a = a.
Proof. reflexivity. Qed.

Lemma append_assoc (a b c : string) : (a +:+ b) +:+ c = a +:+ (b +:+ c).
Proof.
  induction a as [|x a IH]; [done|]. by rewrite !append_cons, IH.
Qed.

Lemma append_nil_r (a : string) : a +:+ "" = a.
Proof.
  induction a as [|x a IH]; [done|]. by rewrite append_cons, IH.
Qed.

Lemma toString_params_None (ps : list string) (msg : string) :
  toString_params ps msg = None ↔ ∃ p, In p ps ∧ has_space p.
Proof.
  revert msg. induction ps as [|p ps IH]; intros msg; simpl.
  - split; [discriminate | intros (? & [] & _)].
  - destruct (strings_Contains p " ") eqn:E.
    + split; [intros _ | done].
      exists p. split; [by left | by apply strings_Contains_space].
    + rewrite IH. split.
      * intros (q & Hq & Hs). eauto.
      * intros (q & [<- | Hq] & Hs); [|eauto].
        apply strings_Contains_space in Hs. congruence.
Qed.

Lemma toString_params_Some (ps : list string) (msg out : string) :
  toString_params ps msg = Some out →
  out = msg +:+ render_params ps.
Proof.
  revert msg. induction ps as [|p ps IH]; intros msg; simpl.
  - intros [= <-]. by rewrite append_nil_r.
  - destruct (strings_Contains p " "); [discriminate|].
    intros H%IH. subst out. by rewrite !append_assoc.
Qed.

(** ** The codec *)

Lemma toString_fails_iff (m : message) :
  snd (toString m) = false ↔
  command m = "" ∨ ∃ p, In p (params m) ∧ has_space p.
Proof.
  unfold toString. destruct (decide (command m = "")) as [He|Hne].
  - simpl. tauto.
  - match goal with |- context [toString_params ?ps ?acc] =>
      pose proof (toString_params_None ps acc) as Hiff;
      destruct (toString_params ps acc) as [out|] end; simpl.
    + split; [discriminate|]. intros [?|Hp]; [done|].
      apply Hiff in Hp. discriminate.
    + split; [intros _; right | done]. by apply Hiff.
Qed.

Lemma toString_output (m : message) :
  toString m = ("", false) ∨ toString m = (render m, true).
Proof.
  unfold toString, render.
  destruct (decide (command m = "")) as [He|Hne]; [by left|].
  match goal with |- context [toString_params ?ps ?acc] =>
    destruct (toString_params ps acc) as [out|] eqn:E end; [right | by left].
  apply toString_params_Some in E. subst out. f_equal.
  assert (Hp : (0 < len_string (prefix m))%Z ↔ prefix m ≠ "").
  { unfold len_string. destruct (prefix m); simpl; split; try done; lia. }
  destruct (decide (0 < len_string (prefix m))%Z) as [H1|H1];
    destruct (decide (prefix m = "")) as [H2|H2]; try tauto;
    destruct (decide (trailing m ≠ "")) as [H3|H3];
    destruct (decide (trailing m = "")) as [H4|H4]; try tauto;
    unfold CRLF; rewrite ?append_assoc, ?append_nil_l; reflexivity.
Qed.

(** C1. Encoding fails (empty text, [ok = false]) exactly when the command
    is empty or some middle parameter contains a space; otherwise the text
    is the optional [":" prefix " "], the command, each middle parameter
    preceded by a space, the non-empty trailing parameter preceded by
    [" :"], and CRLF.  Scenario D is the instance at the end. *)
Theorem toString_spec :
  (∀ m : message,
     (snd (toString m) = false ↔
      command m = "" ∨ ∃ p, In p (params m) ∧ has_space p) ∧
     (snd (toString m) = false → fst (toString m) = "") ∧
     (snd (toString m) = true → fst (toString m) = render m)) ∧
  toString {| prefix := "server.example"; command := "PRIVMSG";
              params := ["#chan"]; trailing := "hello world" |}
  = (":server.example PRIVMSG #chan :hello world" +:+ CRLF, true).
Proof.
  split; [|reflexivity].
  intros m. split; [apply toString_fails_iff|].
  destruct (toString_output m) as [-> | ->]; simpl; split; done.
Qed.

Lemma laxTrailing_nonneg (m : message) (n : nat) :
  laxTrailing m (Z.of_nat n) =
  Some (if decide (trailing m ≠ "") then trailing m
        else if decide (n < length (params m))%nat
             then List.last (params m) ""
             else "").
Proof.
  unfold laxTrailing, len_slice, index_slice.
  destruct (decide (trailing m ≠ "")); [done|].
  destruct (decide (Z.of_nat (length (params m)) <= Z.of_nat n)%Z) as [Hle|Hgt];
    destruct (decide (n < length (params m))%nat) as [Hlt|Hge];
    try done; try lia.
  destruct (decide (Z.of_nat (length (params m)) - 1 < 0)%Z); [lia|].
  replace (Z.to_nat (Z.of_nat (length (params m)) - 1))
    with (Nat.pred (length (params m))) by lia.
  generalize (params m) Hlt. clear. intros ps Hlt.
  destruct ps as [|p ps] using rev_ind; [simpl in Hlt; lia|].
  rewrite List.last_last, length_app. simpl.
  replace (Nat.pred (length ps + 1)) with (length ps) by lia.
  by rewrite list_lookup_middle.
Qed.

(** C6. [laxTrailing n] is the trailing parameter when it is set;
    otherwise the last positional parameter when there are more than [n]
    of them; otherwise the empty string.  With four parameters and no
    trailing, [laxTrailing 3] is the fourth; with exactly three it is
    empty. *)
Theorem laxTrailing_spec :
  (∀ (m : message) (n : nat),
     laxTrailing m (Z.of_nat n) =
     Some (if decide (trailing m ≠ "") then trailing m
           else if decide (n < length (params m))%nat
                then List.last (params m) ""
                else "")) ∧
  (∀ pfx cmd p1 p2 p3 p4,
     laxTrailing (Message pfx cmd [p1; p2; p3; p4] "") 3%Z = Some p4) ∧
  (∀ pfx cmd p1 p2 p3,
     laxTrailing (Message pfx cmd [p1; p2; p3] "") 3%Z = Some "").
Proof.
  split; [exact laxTrailing_nonneg | split; reflexivity].
Qed.

(** A negative bound is not an index: with one and no parameter at all,
    the fallback [params[l-1]] is out of range. *)
Lemma laxTrailing_negative_bound (pfx cmd : string) :
  laxTrailing (Message pfx cmd [] "") (-1)%Z = None.
Proof. reflexivity. Qed.

(** ** Membership maps *)

Lemma map_bool_insert (m : gmap loc bool) (k k' : loc) :
  map_bool (<[k := true]> m) k' = true ↔ k' = k ∨ map_bool m k' = true.
Proof.
  unfold map_bool. destruct (decide (k = k')) as [->|Hne].
  - rewrite lookup_insert_eq. simpl. tauto.
  - rewrite lookup_insert_ne by done. intuition congruence.
Qed.

Lemma map_bool_delete (m : gmap loc bool) (k k' : loc) :
  map_bool (delete k m) k' = true ↔ k' ≠ k ∧ map_bool m k' = true.
Proof.
  unfold map_bool. destruct (decide (k = k')) as [->|Hne].
  - rewrite lookup_delete_eq. simpl. intuition congruence.
  - rewrite lookup_delete_ne by done. intuition congruence.
Qed.

Lemma map_bool_empty (k : loc) : map_bool ∅ k = false.
Proof. unfold map_bool. by rewrite lookup_empty. Qed.

Lemma channel_has_user_update s cl ch f cl' ul' :
  channel_has_user (set_heap_channels <[cl := set_c_users f ch]> s) cl' ul' ↔
  if decide (cl' = cl) then map_bool (f (c_users ch)) ul' = true
  else channel_has_user s cl' ul'.
Proof.
  unfold channel_has_user. simpl. case_decide as Hc.
  - subst cl'. rewrite lookup_insert_eq. split.
    + by intros (? & [= <-] & ?).
    + eauto.
  - by rewrite lookup_insert_ne.
Qed.

Lemma user_has_channel_update s ul u f ul' cl' :
  user_has_channel (set_heap_users <[ul := set_u_channels f u]> s) ul' cl' ↔
  if decide (ul' = ul) then map_bool (f (u_channels u)) cl' = true
  else user_has_channel s ul' cl'.
Proof.
  unfold user_has_channel. simpl. case_decide as Hc.
  - subst ul'. rewrite lookup_insert_eq. split.
    + by intros (? & [= <-] & ?).
    + eauto.
  - by rewrite lookup_insert_ne.
Qed.

Lemma channel_has_user_at s cl ch ul :
  heap_channels s !! cl = Some ch →
  channel_has_user s cl ul ↔ map_bool (c_users ch) ul = true.
Proof. unfold channel_has_user. intros ->. firstorder congruence. Qed.

Lemma user_has_channel_at s ul u cl :
  heap_users s !! ul = Some u →
  user_has_channel s ul cl ↔ map_bool (u_channels u) cl = true.
Proof. unfold user_has_channel. intros ->. firstorder congruence. Qed.

Lemma new_user_loc_fresh s : heap_users s !! new_user_loc s = None.
Proof. apply not_elem_of_dom. unfold new_user_loc. apply is_fresh. Qed.

Lemma new_channel_loc_fresh s : heap_channels s !! new_channel_loc s = None.
Proof. apply not_elem_of_dom. unfold new_channel_loc. apply is_fresh. Qed.

(** ** Symmetry of membership *)

Lemma symmetric_newState config : symmetric (newState config).
Proof.
  intros ul cl. unfold channel_has_user, user_has_channel. simpl.
  split; intros (? & H & _); by rewrite lookup_empty in H.
Qed.

Lemma symmetric_same_heaps s s' :
  heap_users s' = heap_users s → heap_channels s' = heap_channels s →
  symmetric s → symmetric s'.
Proof.
  intros Hu Hc Hs ul cl. specialize (Hs ul cl).
  unfold channel_has_user, user_has_channel in *. by rewrite Hu, Hc.
Qed.

Lemma recycleChannel_heaps s c s' :
  recycleChannel s c = Some s' →
  heap_users s' = heap_users s ∧ heap_channels s' = heap_channels s ∧
  s_users s' = s_users s.
Proof.
  unfold recycleChannel. intros H. destruct c as [cl|]; simplify_option_eq;
    try case_decide; simplify_eq; done.
Qed.

Lemma symmetric_recycleChannel s c s' :
  symmetric s → recycleChannel s c = Some s' → symmetric s'.
Proof.
  intros Hs (Hu & Hc & _)%recycleChannel_heaps. by eapply symmetric_same_heaps.
Qed.

Lemma symmetric_joinChannel s c u s' :
  symmetric s → joinChannel s c u = Some s' → symmetric s'.
Proof.
  unfold joinChannel. intros Hs H.
  destruct c as [cl|]; [|done]. simpl in H.
  destruct (heap_channels s !! cl) as [ch|] eqn:Hch; [|done]. simpl in H.
  destruct u as [ul|]; simpl in H; [|done].
  destruct (map_bool (c_users ch) ul) eqn:Hm; [by simplify_eq|].
  destruct (heap_users s !! ul) as [uo|] eqn:Hu; [|done]. simpl in H.
  simplify_eq. intros ul' cl'.
  rewrite user_has_channel_update.
  change (channel_has_user _ cl' ul') with
    (channel_has_user (set_heap_channels <[cl:=set_c_users <[ul:=true]> ch]> s) cl' ul').
  rewrite channel_has_user_update.
  specialize (Hs ul' cl').
  repeat case_decide; subst; rewrite ?map_bool_insert.
  - tauto.
  - rewrite <- Hs, (channel_has_user_at _ _ _ _ Hch). tauto.
  - rewrite Hs, (user_has_channel_at _ _ _ _ Hu). tauto.
  - change (user_has_channel _ ul' cl') with (user_has_channel s ul' cl'). done.
Qed.

(** What [removeFromChannel] does when it returns. *)
Lemma removeFromChannel_inv s c u s' :
  removeFromChannel s c u = Some s' →
  ∃ cl ul uo ch,
    c = Some cl ∧ u = Some ul ∧
    heap_users s !! ul = Some uo ∧ heap_channels s !! cl = Some ch ∧
    let s1 := set_heap_users <[ul := set_u_channels (delete cl) uo]> s in
    if map_bool (c_users ch) ul then
      let s2 := set_heap_channels <[cl := set_c_users (delete ul) ch]> s1 in
      s' = if decide (size (delete ul (c_users ch)) ≠ 0)
           then s2 else set_s_channels (delete (c_name ch)) s2
    else s' = s1.
Proof.
  unfold removeFromChannel. intros H.
  destruct u as [ul|]; [|done]. simpl in H.
  destruct (heap_users s !! ul) as [uo|] eqn:Hu; [|done]. simpl in H.
  destruct c as [cl|]; [|done]. simpl in H.
  destruct (heap_channels s !! cl) as [ch|] eqn:Hch; [|done]. simpl in H.
  exists cl, ul, uo, ch. repeat split; try done. simpl.
  destruct (map_bool (c_users ch) ul); simpl in H; [|by simplify_eq].
  rewrite lookup_insert_eq in H. simpl in H.
  case_decide; by simplify_eq.
Qed.

Lemma symmetric_removeFromChannel s c u s' :
  symmetric s → removeFromChannel s c u = Some s' → symmetric s'.
Proof.
  intros Hs (cl & ul & uo & ch & -> & -> & Hu & Hch & H)%removeFromChannel_inv.
  simpl in H.
  set (s1 := set_heap_users <[ul := set_u_channels (delete cl) uo]> s) in *.
  set (s2 := set_heap_channels <[cl := set_c_users (delete ul) ch]> s1) in *.
  assert (H1 : ∀ ul' cl', user_has_channel s1 ul' cl' ↔
            user_has_channel s ul' cl' ∧ ¬ (ul' = ul ∧ cl' = cl)).
  { intros ul' cl'. unfold s1. rewrite user_has_channel_update.
    destruct (decide (ul' = ul)) as [->|Hne].
    - rewrite map_bool_delete, (user_has_channel_at _ _ _ _ Hu). tauto.
    - tauto. }
  destruct (map_bool (c_users ch) ul) eqn:Hm.
  - assert (symmetric s2) as Hs2.
    { intros ul' cl'. unfold s2. rewrite channel_has_user_update.
      change (user_has_channel _ ul' cl') with (user_has_channel s1 ul' cl').
      rewrite H1, <- (Hs ul' cl'). destruct (decide (cl' = cl)) as [->|Hne].
      + rewrite map_bool_delete, (channel_has_user_at _ _ _ _ Hch).
        tauto.
      + change (channel_has_user s1 cl' ul') with (channel_has_user s cl' ul').
        tauto. }
    destruct (decide (size (delete ul (c_users ch)) ≠ 0)); subst s'; [done|].
    by eapply symmetric_same_heaps; [| |exact Hs2].
  - subst s'. intros ul' cl'.
    change (channel_has_user s1 cl' ul') with (channel_has_user s cl' ul').
    rewrite H1, <- (Hs ul' cl'). split; [|tauto]. intros H. split; [done|].
    intros [-> ->]. apply (channel_has_user_at _ _ _ _ Hch) in H. congruence.
Qed.

(** Rewriting a user without touching its channels. *)
Lemma symmetric_rewrite_user s ul u u' :
  heap_users s !! ul = Some u → u_channels u' = u_channels u →
  symmetric s → symmetric (set_heap_users <[ul := u']> s).
Proof.
  intros Hu Hch Hs ul0 cl. rewrite (Hs ul0 cl).
  unfold user_has_channel. simpl.
  destruct (decide (ul0 = ul)) as [->|Hne].
  - rewrite lookup_insert_eq, Hu. split.
    + intros (? & [= <-] & Hm). exists u'. by rewrite Hch.
    + intros (? & [= <-] & Hm). exists u. by rewrite <- Hch.
  - by rewrite lookup_insert_ne.
Qed.

Lemma assign_sink_inv s p conn s' :
  assign_sink s p conn = Some s' →
  ∃ ul u, p = Some ul ∧ heap_users s !! ul = Some u ∧
          s' = set_heap_users <[ul := set_u_sink conn u]> s.
Proof.
  unfold assign_sink. intros H. destruct p as [ul|]; [|done]. simpl in H.
  destruct (heap_users s !! ul) as [u|] eqn:Hu; [|done]. simpl in H.
  exists ul, u. by simplify_eq.
Qed.

Lemma assign_user_inv s p name s' :
  assign_user s p name = Some s' →
  ∃ ul u, p = Some ul ∧ heap_users s !! ul = Some u ∧
          s' = set_heap_users <[ul := set_u_user name u]> s.
Proof.
  unfold assign_user. intros H. destruct p as [ul|]; [|done]. simpl in H.
  destruct (heap_users s !! ul) as [u|] eqn:Hu; [|done]. simpl in H.
  exists ul, u. by simplify_eq.
Qed.

Lemma symmetric_assign_sink s p conn s' :
  symmetric s → assign_sink s p conn = Some s' → symmetric s'.
Proof.
  intros Hs (ul & u & -> & Hu & ->)%assign_sink_inv.
  by eapply symmetric_rewrite_user.
Qed.

Lemma symmetric_assign_user s p name s' :
  symmetric s → assign_user s p name = Some s' → symmetric s'.
Proof.
  intros Hs (ul & u & -> & Hu & ->)%assign_user_inv.
  by eapply symmetric_rewrite_user.
Qed.

Lemma symmetric_forChannels s ul order s' :
  symmetric s →
  forChannels order (λ s ch, partChannel s ch (Some ul) "QUITing") s = Some s' →
  symmetric s'.
Proof.
  revert s. induction order as [|cl order IH]; intros s Hs H;
    cbn [forChannels] in H.
  - by simplify_eq.
  - destruct (partChannel s (Some cl) (Some ul) "QUITing") as [s1|] eqn:E;
      simpl in H; [|done].
    eapply IH; [|exact H]. eapply symmetric_removeFromChannel; [exact Hs|exact E].
Qed.

Section Symmetry.
Variable lowercase : string → string.

Lemma symmetric_newUser s nick : symmetric s → symmetric (fst (newUser lowercase s nick)).
Proof.
  intros Hs. unfold newUser. case_decide; [done|].
  destruct (isValidNick _); simpl; [|done].
  pose proof (new_user_loc_fresh s) as Hfresh.
  intros ul cl. unfold channel_has_user, user_has_channel. simpl.
  destruct (decide (ul = new_user_loc s)) as [->|Hne].
  - rewrite lookup_insert_eq. split.
    + intros Hc. apply Hs in Hc as (u & Hu & _). congruence.
    + intros (u & [= <-] & Hm). simpl in Hm. by rewrite map_bool_empty in Hm.
  - rewrite lookup_insert_ne by done. apply Hs.
Qed.

Lemma symmetric_newChannel s name s' r :
  symmetric s → newChannel lowercase s name = Some (s', r) → symmetric s'.
Proof.
  intros Hs. unfold newChannel. case_decide; [by intros; simplify_eq|].
  destruct (index_string _ 0%Z) as [b|]; [|done]. simpl.
  case_decide; intros; simplify_eq; [done|].
  pose proof (new_channel_loc_fresh s) as Hfresh.
  intros ul cl. unfold channel_has_user, user_has_channel. simpl.
  destruct (decide (cl = new_channel_loc s)) as [->|Hne].
  - rewrite lookup_insert_eq. split.
    + intros (c & [= <-] & Hm). simpl in Hm. by rewrite map_bool_empty in Hm.
    + intros Hc. apply Hs in Hc as (c & Hc & _). congruence.
  - rewrite lookup_insert_ne by done. apply Hs.
Qed.

Lemma symmetric_removeUser_in order s u s' :
  symmetric s → removeUser_in lowercase order s u = Some s' → symmetric s'.
Proof.
  unfold removeUser_in. intros Hs H.
  destruct u as [ul|]; [|done]. simpl in H.
  destruct (heap_users s !! ul) as [uo|]; [|done]. simpl in H.
  destruct (forChannels _ _ _) as [s1|] eqn:E; simpl in H; [|done].
  simplify_eq. apply (symmetric_same_heaps s1); [reflexivity..|].
  eapply symmetric_forChannels; [exact Hs|exact E].
Qed.

Lemma symmetric_exec s c s' :
  symmetric s → exec lowercase s c = Some s' → symmetric s'.
Proof.
  intros Hs.
  destruct c as [nick|u|name|ch|ch u|ch u reason|ch u|u conn|u name]; simpl.
  - intros [= <-]. by apply symmetric_newUser.
  - unfold removeUser. destruct (deref_user s u) as [uo|]; [|done]. simpl.
    by apply symmetric_removeUser_in.
  - destruct (newChannel lowercase s name) as [[s1 r]|] eqn:E; [|done].
    intros [= <-]. by eapply symmetric_newChannel.
  - by apply symmetric_recycleChannel.
  - by apply symmetric_joinChannel.
  - by apply symmetric_removeFromChannel.
  - by apply symmetric_removeFromChannel.
  - by apply symmetric_assign_sink.
  - by apply symmetric_assign_user.
Qed.

Lemma exec_all_invariant (P : stateImpl → Prop) :
  (∀ s c s', P s → exec lowercase s c = Some s' → P s') →
  ∀ cs s s', P s → exec_all lowercase s cs = Some s' → P s'.
Proof.
  intros Hstep. induction cs as [|c cs IH]; intros s s' HP H; simpl in H.
  - by simplify_eq.
  - destruct (exec lowercase s c) as [s1|] eqn:E; simpl in H; [|done]. eauto.
Qed.

Lemma symmetric_reachable s : reachable lowercase s → symmetric s.
Proof.
  intros (config & cs & H).
  eapply (exec_all_invariant symmetric); [apply symmetric_exec| |exact H].
  apply symmetric_newState.
Qed.

(** C5. Membership is symmetric in every reachable registry state: it is
    so in a new state, each of the registry calls ([newUser],
    [removeUser], [newChannel], [recycleChannel], [joinChannel],
    [partChannel], [removeFromChannel]) keeps it so, and hence a user is
    among a channel's members exactly when the channel is among the
    user's channels. *)
Theorem membership_symmetric :
  (∀ config, symmetric (newState config)) ∧
  (∀ s c s', symmetric s → exec lowercase s c = Some s' → symmetric s') ∧
  (∀ s, reachable lowercase s → symmetric s).
Proof.
  split; [apply symmetric_newState|]. split; [apply symmetric_exec|].
  apply symmetric_reachable.
Qed.
End Symmetry.

(** ** Parting and recycling *)

Lemma removeFromChannel_steps s c u s' :
  removeFromChannel s c u = Some s' →
  names_kept s s' ∧ emptied_are_recycled s s' ∧ directory_shrinks s s' ∧
  dom (heap_channels s') = dom (heap_channels s).
Proof.
  intros (cl & ul & uo & ch & -> & -> & Hu & Hch & H)%removeFromChannel_inv.
  simpl in H. destruct (map_bool (c_users ch) ul) eqn:Hm.
  - assert (Hheap : heap_channels s' =
              <[cl := set_c_users (delete ul) ch]> (heap_channels s)).
    { destruct (decide (size (delete ul (c_users ch)) ≠ 0)); by subst s'. }
    assert (Hdir : s_channels s' =
              if decide (size (delete ul (c_users ch)) ≠ 0) then s_channels s
              else delete (c_name ch) (s_channels s)).
    { destruct (decide (size (delete ul (c_users ch)) ≠ 0)); by subst s'. }
    clear H. repeat split.
    + intros cl' ch0 H0. rewrite Hheap.
      destruct (decide (cl' = cl)) as [->|Hne].
      * rewrite lookup_insert_eq. simplify_eq. eauto.
      * rewrite lookup_insert_ne by done. eauto.
    + intros cl' ch0 ch' H0 H' Hnz Hz. rewrite Hheap in H'.
      destruct (decide (cl' = cl)) as [->|Hne].
      * rewrite lookup_insert_eq in H'. simplify_eq. simpl in *.
        rewrite Hdir. case_decide; [done|]. apply lookup_delete_eq.
      * rewrite lookup_insert_ne in H' by done. congruence.
    + unfold directory_shrinks. rewrite Hdir. case_decide; [done|].
      apply delete_subseteq.
    + rewrite Hheap. apply dom_insert_lookup_L. eauto.
  - subst s'. repeat split.
    + intros cl' ch0 H0. eauto.
    + intros cl' ch0 ch' H0 H'. simpl in H'. congruence.
    + by unfold directory_shrinks.
Qed.

Lemma forChannels_part_steps ul order s s' :
  forChannels order (λ s ch, partChannel s ch (Some ul) "QUITing") s = Some s' →
  names_kept s s' ∧ emptied_are_recycled s s' ∧ directory_shrinks s s' ∧
  dom (heap_channels s') = dom (heap_channels s).
Proof.
  revert s. induction order as [|cl order IH]; intros s H;
    cbn [forChannels] in H.
  - simplify_eq. repeat split.
    + intros cl ch ?. eauto.
    + intros cl ch ch' ? ? ? ?. congruence.
    + by unfold directory_shrinks.
  - destruct (partChannel s (Some cl) (Some ul) "QUITing") as [s1|] eqn:E;
      simpl in H; [|done].
    unfold partChannel in E.
    apply removeFromChannel_steps in E as (N1 & E1 & D1 & M1).
    apply IH in H as (N2 & E2 & D2 & M2). repeat split.
    + intros cl' ch Hc. destruct (N1 _ _ Hc) as (ch1 & Hc1 & <-).
      destruct (N2 _ _ Hc1) as (ch2 & Hc2 & <-). eauto.
    + intros cl' ch ch' Hc Hc' Hnz Hz.
      destruct (N1 _ _ Hc) as (ch1 & Hc1 & Hn1).
      destruct (N2 _ _ Hc1) as (ch2 & Hc2 & Hn2). simplify_eq.
      destruct (decide (size (c_users ch1) = 0)) as [Hz1|Hnz1].
      * rewrite Hn2. eapply lookup_weaken_None; [|exact D2]. by eapply E1.
      * by eapply E2.
    + unfold directory_shrinks in *. by etrans.
    + congruence.
Qed.

Lemma emptied_same_channels s s' :
  heap_channels s' = heap_channels s → emptied_are_recycled s s'.
Proof. intros Hh cl ch ch' Hc Hc'. rewrite Hh in Hc'. congruence. Qed.

Lemma names_kept_same_channels s s' :
  heap_channels s' = heap_channels s → names_kept s s'.
Proof. intros Hh cl ch Hc. rewrite Hh. eauto. Qed.

Lemma recycleChannel_steps s c s' :
  recycleChannel s c = Some s' →
  heap_channels s' = heap_channels s ∧ directory_shrinks s s'.
Proof.
  unfold recycleChannel, directory_shrinks. intros H.
  destruct c as [cl|]; [|by simplify_eq].
  destruct (heap_channels s !! cl) as [ch|]; simpl in H; [|done].
  case_decide; simplify_eq; [done|]. split; [done|]. apply delete_subseteq.
Qed.

Lemma joinChannel_steps s c u s' :
  joinChannel s c u = Some s' →
  names_kept s s' ∧ emptied_are_recycled s s' ∧ directory_shrinks s s' ∧
  dom (heap_channels s') = dom (heap_channels s).
Proof.
  unfold joinChannel. intros H.
  destruct c as [cl|]; [|done]. simpl in H.
  destruct (heap_channels s !! cl) as [ch|] eqn:Hch; [|done]. simpl in H.
  destruct (from_option _ _ _).
  { simplify_eq. split; [by apply names_kept_same_channels|].
    split; [by apply emptied_same_channels|].
    split; [by unfold directory_shrinks|done]. }
  destruct u as [ul|]; [|done]. simpl in H.
  destruct (heap_users s !! ul) as [uo|] eqn:Hu; [|done]. simpl in H.
  simplify_eq. repeat split.
  - intros cl' ch0 H0. simpl. destruct (decide (cl' = cl)) as [->|Hne].
    + rewrite lookup_insert_eq. simplify_eq. eauto.
    + rewrite lookup_insert_ne by done. eauto.
  - intros cl' ch0 ch' H0 H' Hnz Hz. simpl in H'.
    destruct (decide (cl' = cl)) as [->|Hne].
    + rewrite lookup_insert_eq in H'. simplify_eq. simpl in Hz.
      apply map_size_empty_iff in Hz. by apply insert_non_empty in Hz.
    + rewrite lookup_insert_ne in H' by done. congruence.
  - by unfold directory_shrinks.
  - simpl. apply dom_insert_lookup_L. eauto.
Qed.

Lemma directory_ok_step lowercase s s' :
  names_kept s s' → directory_shrinks s s' →
  dom (heap_channels s') = dom (heap_channels s) →
  directory_ok lowercase s → directory_ok lowercase s'.
Proof.
  intros Hn Hd Hdom [Hr Hk]. split.
  - intros k cl H. eapply lookup_weaken in H; [|exact Hd].
    destruct (Hr _ _ H) as (ch & Hc & <-). by apply Hn.
  - intros cl ch' H'.
    assert (is_Some (heap_channels s !! cl)) as [ch Hc].
    { apply elem_of_dom. rewrite <- Hdom. apply elem_of_dom. eauto. }
    destruct (Hn _ _ Hc) as (ch'' & Hc'' & Hname). simplify_eq.
    rewrite Hname. by eapply Hk.
Qed.

Section Directory.
Variable lowercase : string → string.

Lemma newChannel_inv s name s' r :
  newChannel lowercase s name = Some (s', r) →
  (s' = s ∧ r = nil) ∨
  (s_channels s !! lowercase name = None ∧
   (index_string (lowercase name) 0%Z = Some "#"%char ∨
    index_string (lowercase name) 0%Z = Some "&"%char) ∧
   r = Some (new_channel_loc s) ∧
   s' = set_s_channels <[lowercase name := new_channel_loc s]>
          (set_heap_channels
             <[new_channel_loc s :=
                 {| c_name := lowercase name; c_users := ∅ |}]> s)).
Proof.
  unfold newChannel. intros H.
  destruct (decide (s_channels s !! lowercase name ≠ None)) as [Hin|Hin];
    [left; by simplify_eq|].
  destruct (index_string (lowercase name) 0%Z) as [b|]; simpl in H; [|done].
  destruct (decide (b ≠ "#"%char ∧ b ≠ "&"%char)) as [Hb|Hb];
    [left; by simplify_eq|].
  right. simplify_eq.
  split; [destruct (s_channels s !! lowercase name); [by destruct Hin|done]|].
  split; [|done].
  destruct (decide (b = "#"%char)) as [->|]; [by left|].
  destruct (decide (b = "&"%char)) as [->|]; [by right|]. tauto.
Qed.

Lemma directory_ok_newState config : directory_ok lowercase (newState config).
Proof.
  split.
  - intros k cl H. simpl in H. by rewrite lookup_empty in H.
  - intros cl ch H. simpl in H. by rewrite lookup_empty in H.
Qed.

Lemma directory_ok_newChannel s name s' r :
  directory_ok lowercase s → newChannel lowercase s name = Some (s', r) →
  directory_ok lowercase s'.
Proof.
  intros [Hr Hk] [[-> _] | (Hnone & Hb & _ & ->)]%newChannel_inv; [done|].
  pose proof (new_channel_loc_fresh s) as Hfresh. split.
  - intros k cl H. simpl in *.
    destruct (decide (k = lowercase name)) as [->|Hne].
    + rewrite lookup_insert_eq in H. simplify_eq.
      rewrite lookup_insert_eq. eauto.
    + rewrite lookup_insert_ne in H by done.
      destruct (Hr _ _ H) as (ch & Hc & <-).
      rewrite lookup_insert_ne by congruence. eauto.
  - intros cl ch H. simpl in H.
    destruct (decide (cl = new_channel_loc s)) as [->|Hne].
    + rewrite lookup_insert_eq in H. simplify_eq. simpl. eauto.
    + rewrite lookup_insert_ne in H by done. by eapply Hk.
Qed.

Lemma newChannel_emptied s name s' r :
  newChannel lowercase s name = Some (s', r) → emptied_are_recycled s s'.
Proof.
  intros [[-> _] | (Hnone & Hb & _ & ->)]%newChannel_inv;
    [by apply emptied_same_channels|].
  pose proof (new_channel_loc_fresh s) as Hfresh.
  intros cl ch ch' Hc Hc'. simpl in Hc'.
  rewrite lookup_insert_ne in Hc' by congruence. congruence.
Qed.

Lemma removeUser_steps s u s' :
  removeUser lowercase s u = Some s' →
  names_kept s s' ∧ emptied_are_recycled s s' ∧ directory_shrinks s s' ∧
  dom (heap_channels s') = dom (heap_channels s).
Proof.
  unfold removeUser, removeUser_in. intros H.
  destruct (deref_user s u) as [uo|]; simpl in H; [|done].
  destruct u as [ul|]; [|done]. simpl in H.
  destruct (heap_users s !! ul) as [uo'|]; simpl in H; [|done].
  destruct (forChannels _ _ _) as [s1|] eqn:E; simpl in H; [|done].
  simplify_eq. by apply forChannels_part_steps in E.
Qed.

Lemma exec_steps s c s' :
  directory_ok lowercase s → exec lowercase s c = Some s' →
  directory_ok lowercase s' ∧ emptied_are_recycled s s'.
Proof.
  intros Hok.
destruct c as [nick|u|name|ch|ch u|ch u reason|ch u|u conn|u name]; simpl.
  - intros [= <-]. unfold newUser. case_decide; [by split; [|apply emptied_same_channels]|].
    destruct (isValidNick _); simpl; by split; [|apply emptied_same_channels].
  - intros (N & E & D & M)%removeUser_steps. split; [|done].
    by eapply directory_ok_step.
  - destruct (newChannel lowercase s name) as [[s1 r]|] eqn:E; [|done].
    intros [= <-]. split; [by eapply directory_ok_newChannel|].
    by eapply newChannel_emptied.
  - intros (Hh & D)%recycleChannel_steps. split; [|by apply emptied_same_channels].
    eapply directory_ok_step; [by apply names_kept_same_channels|done|by rewrite Hh|done].
  - intros (N & E & D & M)%joinChannel_steps. split; [|done].
    by eapply directory_ok_step.
  - unfold partChannel. intros (N & E & D & M)%removeFromChannel_steps. split; [|done].
    by eapply directory_ok_step.
  - intros (N & E & D & M)%removeFromChannel_steps. split; [|done].
    by eapply directory_ok_step.
- intros (ul & uo & -> & Hu & ->)%assign_sink_inv.
  split; [|by apply emptied_same_channels].
  eapply directory_ok_step;
    [by apply names_kept_same_channels | by unfold directory_shrinks
    | done | done].
- intros (ul & uo & -> & Hu & ->)%assign_user_inv.
  split; [|by apply emptied_same_channels].
  eapply directory_ok_step;
    [by apply names_kept_same_channels | by unfold directory_shrinks
    | done | done].
Qed.

Lemma directory_ok_reachable s : reachable lowercase s → directory_ok lowercase s.
Proof.
  intros (config & cs & H).
  eapply (exec_all_invariant lowercase (directory_ok lowercase)); [| |exact H].
  - intros s0 c s1 H0 H1. by eapply exec_steps.
  - apply directory_ok_newState.
Qed.

Hypothesis lowercase_idem : ∀ n, lowercase (lowercase n) = lowercase n.

Lemma recycled_not_found s cl ch :
  directory_ok lowercase s → heap_channels s !! cl = Some ch →
  s_channels s !! c_name ch = None →
  getChannel lowercase s (c_name ch) = nil ∧
  ∀ k, s_channels s !! k ≠ Some cl.
Proof.
  intros [Hr Hk] Hc Hnone. split.
  - unfold getChannel. destruct (Hk _ _ Hc) as [[n Hn] _].
    rewrite Hn in *. by rewrite lowercase_idem.
  - intros k H. destruct (Hr _ _ H) as (ch0 & Hc0 & <-). simplify_eq.
Qed.

(** C4. When [partChannel] removes the only member of a channel, the
    channel is gone from the directory when the call returns: [getChannel]
    on its name finds nothing.  More generally, whenever a registry call
    takes a channel from having members to having none, that channel is
    under no key of the directory afterwards. *)
Theorem emptied_channel_is_recycled :
  (∀ s cl ul ch reason,
     reachable lowercase s →
     heap_channels s !! cl = Some ch →
     size (c_users ch) = 1 → map_bool (c_users ch) ul = true →
     ∃ s', partChannel s (Some cl) (Some ul) reason = Some s' ∧
           (∃ ch', heap_channels s' !! cl = Some ch' ∧ c_users ch' = ∅) ∧
           getChannel lowercase s' (c_name ch) = nil ∧
           ∀ k, s_channels s' !! k ≠ Some cl) ∧
  (∀ s c s' cl ch ch',
     reachable lowercase s → exec lowercase s c = Some s' →
     heap_channels s !! cl = Some ch → size (c_users ch) ≠ 0 →
     heap_channels s' !! cl = Some ch' → size (c_users ch') = 0 →
     getChannel lowercase s' (c_name ch') = nil ∧
     ∀ k, s_channels s' !! k ≠ Some cl).
Proof.
  assert (Hgen : ∀ s c s' cl ch ch',
     reachable lowercase s → exec lowercase s c = Some s' →
     heap_channels s !! cl = Some ch → size (c_users ch) ≠ 0 →
     heap_channels s' !! cl = Some ch' → size (c_users ch') = 0 →
     getChannel lowercase s' (c_name ch') = nil ∧
     ∀ k, s_channels s' !! k ≠ Some cl).
  { intros s c s' cl ch ch' Hreach Hex Hc Hnz Hc' Hz.
    apply directory_ok_reachable in Hreach.
    destruct (exec_steps _ _ _ Hreach Hex) as [Hok Hem].
    apply recycled_not_found; [done..|]. by eapply Hem. }
  split; [|exact Hgen].
  intros s cl ul ch reason Hreach Hc Hsz Hm.
  assert (is_Some (heap_users s !! ul)) as [uo Hu].
  { pose proof (symmetric_reachable lowercase s Hreach ul cl) as Hsym.
    destruct (proj1 Hsym) as (uo & Hu & _); [by exists ch|eauto]. }
  assert (Hz : size (delete ul (c_users ch)) = 0).
  { unfold map_bool in Hm. destruct (c_users ch !! ul) as [b|] eqn:Hl; [|done].
    assert (is_Some (c_users ch !! ul)) as Hsome by eauto.
    pose proof (map_size_delete_Some ul (c_users ch) Hsome) as Hd. lia. }
  set (s1 := set_heap_users <[ul := set_u_channels (delete cl) uo]> s).
  set (s2 := set_heap_channels <[cl := set_c_users (delete ul) ch]> s1).
  assert (Hp : partChannel s (Some cl) (Some ul) reason =
               Some (set_s_channels (delete (c_name ch)) s2)).
  { unfold partChannel, removeFromChannel. simpl. rewrite Hu. simpl.
    rewrite Hc. simpl. rewrite Hm. simpl. rewrite lookup_insert_eq. simpl.
    case_decide; [done|]. reflexivity. }
  eexists. split; [exact Hp|].
  assert (Hc' : heap_channels (set_s_channels (delete (c_name ch)) s2) !! cl
                = Some (set_c_users (delete ul) ch)).
  { simpl. apply lookup_insert_eq. }
  split.
  - eexists. split; [exact Hc'|]. simpl. by apply map_size_empty_iff.
  - apply (Hgen s (CallPartChannel (Some cl) (Some ul) reason) _ cl ch
             (set_c_users (delete ul) ch) Hreach Hp Hc);
      [lia|exact Hc'|exact Hz].
Qed.
End Directory.

(** ** The ASCII instance of [lowercase] *)

Lemma lower_byte_idem (c : ascii) : lower_byte (lower_byte c) = lower_byte c.
Proof. by destruct c as [[] [] [] [] [] [] [] []]. Qed.

Lemma ascii_lowercase_length (n : string) :
  String.length (ascii_lowercase n) = String.length n.
Proof. induction n as [|c n IH]; simpl; congruence. Qed.

Lemma ascii_lowercase_idem (n : string) :
  ascii_lowercase (ascii_lowercase n) = ascii_lowercase n.
Proof.
  induction n as [|c n IH]; [done|].
  cbn [ascii_lowercase]. by rewrite lower_byte_idem, IH.
Qed.

(** ** Creating users and channels *)

Lemma isValidNick_length (nick : string) :
  isValidNick nick = true ↔ (String.length nick ≤ 9)%nat.
Proof.
  unfold isValidNick, len_string. rewrite bool_decide_eq_true. lia.
Qed.

Section Creation.
Variable lowercase : string → string.

Lemma newUser_registered s nick :
  s_users s !! lowercase nick ≠ None → newUser lowercase s nick = (s, nil).
Proof. intros H. unfold newUser. by rewrite decide_True. Qed.

Lemma newUser_invalid s nick :
  isValidNick (lowercase nick) = false → newUser lowercase s nick = (s, nil).
Proof.
  intros H. unfold newUser. rewrite H. by case_decide.
Qed.

Lemma newUser_fresh s nick :
  s_users s !! lowercase nick = None →
  isValidNick (lowercase nick) = true →
  newUser lowercase s nick =
    (set_s_users <[lowercase nick := new_user_loc s]>
       (set_heap_users
          <[new_user_loc s := {| u_nick := nick; u_user := "";
                                 u_channels := ∅; u_sink := None |}]> s),
     Some (new_user_loc s)).
Proof.
  intros Hn Hv. unfold newUser. rewrite Hv, decide_False; [done|].
  by rewrite Hn; intros ?.
Qed.

Lemma newChannel_empty s :
  lowercase "" = "" → s_channels s !! "" = None →
  newChannel lowercase s "" = None.
Proof.
  intros He Hn. unfold newChannel. rewrite He, decide_False; [done|].
  by rewrite Hn; intros ?.
Qed.

(** Names whose lowercase form starts with another byte are refused and
    leave the registry as it is. *)
Lemma newChannel_rejects s name b :
  index_string (lowercase name) 0%Z = Some b →
  b ≠ "#"%char → b ≠ "&"%char →
  newChannel lowercase s name = Some (s, nil).
Proof.
  intros Hb H1 H2. unfold newChannel. case_decide; [done|].
  rewrite Hb. simpl. by rewrite decide_True.
Qed.

(** A name whose lowercase form starts with [#] or [&] is accepted once:
    the repeat, in any letter case, is refused. *)
Lemma newChannel_accepts s name :
  s_channels s !! lowercase name = None →
  (index_string (lowercase name) 0%Z = Some "#"%char ∨
   index_string (lowercase name) 0%Z = Some "&"%char) →
  ∃ s' cl, newChannel lowercase s name = Some (s', Some cl) ∧
    ∀ name', lowercase name' = lowercase name →
      newChannel lowercase s' name' = Some (s', nil).
Proof.
  intros Hn Hb. eexists _, _. split.
  - unfold newChannel. rewrite decide_False by (by rewrite Hn; intros ?).
    destruct Hb as [-> | ->]; reflexivity.
  - intros name' He. unfold newChannel. rewrite He, decide_True; [done|].
    simpl. by rewrite lookup_insert_eq.
Qed.

Hypothesis lowercase_length :
  ∀ n, String.length (lowercase n) = String.length n.

Lemma lowercase_empty : lowercase "" = "".
Proof.
  pose proof (lowercase_length "") as H. by destruct (lowercase "").
Qed.

(** C2. A nickname of at most nine bytes that is not registered is
    accepted: [newUser] allocates a user with that nickname and no
    channel, and registers it under the lowercase nickname; a repeat with
    a nickname of the same lowercase form returns [nil], and so does any
    nickname longer than nine bytes. *)
Theorem newUser_spec s nick :
  ((String.length nick ≤ 9)%nat → getUser lowercase s nick = nil →
   ∃ ul, let s' := fst (newUser lowercase s nick) in
     snd (newUser lowercase s nick) = Some ul ∧
     heap_users s !! ul = None ∧
     s' = set_s_users <[lowercase nick := ul]>
            (set_heap_users
               <[ul := {| u_nick := nick; u_user := "";
                          u_channels := ∅; u_sink := None |}]> s) ∧
     heap_users s' !! ul = Some {| u_nick := nick; u_user := "";
                                   u_channels := ∅; u_sink := None |} ∧
     getUser lowercase s' nick = Some ul ∧
     ∀ nick', lowercase nick' = lowercase nick →
              newUser lowercase s' nick' = (s', nil)) ∧
  ((9 < String.length nick)%nat → newUser lowercase s nick = (s, nil)).
Proof.
  split.
  - intros Hlen Hfree. unfold getUser in Hfree.
    assert (Hv : isValidNick (lowercase nick) = true).
    { apply isValidNick_length. by rewrite lowercase_length. }
    rewrite (newUser_fresh _ _ Hfree Hv). exists (new_user_loc s). simpl.
    split; [done|]. split; [apply new_user_loc_fresh|]. split; [done|].
    split; [apply lookup_insert_eq|].
    split; [unfold getUser; simpl; apply lookup_insert_eq|].
    intros nick' He. apply newUser_registered. simpl.
    by rewrite He, lookup_insert_eq.
  - intros Hlen. apply newUser_invalid.
    destruct (isValidNick (lowercase nick)) eqn:E; [|done].
    apply isValidNick_length in E. rewrite lowercase_length in E. lia.
Qed.

(** C3. On the empty name [newChannel] does not return: no channel is
    ever registered under the empty name, so the existence check passes
    and [name[0]] is out of range. *)
Theorem newChannel_empty_name_faults s :
  reachable lowercase s → newChannel lowercase s "" = None.
Proof.
  intros [Hr Hk]%directory_ok_reachable.
  apply newChannel_empty; [apply lowercase_empty|].
  destruct (s_channels s !! "") as [cl|] eqn:E; [|done].
  destruct (Hr _ _ E) as (ch & Hc & Hname).
  destruct (Hk _ _ Hc) as [_ Hb]. rewrite Hname in Hb.
  by destruct Hb.
Qed.

(** C10. Only the upper bound on the length is checked: when no user is
    registered under the empty nickname, [newUser ""] creates one whose
    nickname and key are empty, and the fresh handler passes an empty
    first parameter of NICK on to it and moves to [freshUserHandler]. *)
Theorem empty_nickname_registers s :
  getUser lowercase s "" = nil →
  isValidNick "" = true ∧
  ∃ ul, let s' := fst (newUser lowercase s "") in
    snd (newUser lowercase s "") = Some ul ∧
    heap_users s' !! ul = Some {| u_nick := ""; u_user := "";
                                  u_channels := ∅; u_sink := None |} ∧
    s_users s' !! "" = Some ul ∧
    ∀ conn msg rest,
      command msg = command cmdNick → params msg = "" :: rest →
      ∃ s'', freshHandler_handle lowercase conn msg s
             = Some (freshUserHandler (Some ul), s'', []) ∧
             getUser lowercase s'' "" = Some ul ∧
             (u_nick <$> heap_users s'' !! ul) = Some "".
Proof.
  intros Hfree. split; [done|]. unfold getUser in Hfree.
  assert (Hv : isValidNick (lowercase "") = true) by by rewrite lowercase_empty.
  pose proof (newUser_fresh _ _ Hfree Hv) as Hnew.
  exists (new_user_loc s). rewrite Hnew. simpl.
  split; [done|]. split; [apply lookup_insert_eq|].
  split; [rewrite lowercase_empty; apply lookup_insert_eq|].
  intros conn msg rest Hcmd Hps.
  unfold freshHandler_handle, freshHandler_handleNick.
  rewrite Hcmd, Hps. simpl. rewrite Hnew. simpl.
  rewrite lookup_insert_eq. simpl.
  rewrite decide_False by (unfold len_slice; simpl; lia).
  eexists. split; [done|].
  unfold getUser. simpl. rewrite lowercase_empty, !lookup_insert_eq. done.
Qed.
End Creation.

(** ** Joining *)

Lemma joinChannel_member s cl ul ch :
  heap_channels s !! cl = Some ch → map_bool (c_users ch) ul = true →
  joinChannel s (Some cl) (Some ul) = Some s.
Proof. intros Hc Hm. unfold joinChannel. simpl. rewrite Hc. simpl. by rewrite Hm. Qed.

Lemma joinChannel_twice s c u s' :
  joinChannel s c u = Some s' → joinChannel s' c u = Some s'.
Proof.
  intros H. unfold joinChannel in H.
  destruct c as [cl|]; [|done]. simpl in H.
  destruct (heap_channels s !! cl) as [ch|] eqn:Hch; [|done]. simpl in H.
  destruct u as [ul|]; simpl in H; [|done].
  destruct (map_bool (c_users ch) ul) eqn:Hm.
  { simplify_eq. by eapply joinChannel_member. }
  destruct (heap_users s !! ul) as [uo|] eqn:Hu; [|done]. simpl in H.
  simplify_eq.
  apply (joinChannel_member _ cl ul (set_c_users <[ul:=true]> ch)).
  - simpl. apply lookup_insert_eq.
  - simpl. apply map_bool_insert. by left.
Qed.

(** C8. Joining twice is joining once: a second [joinChannel] with the
    same channel and user returns the state the first one left, and
    joining a channel the user is already a member of changes nothing. *)
Theorem joinChannel_idempotent :
  (∀ s c u, joinChannel s c u ≫= (λ s', joinChannel s' c u) = joinChannel s c u) ∧
  (∀ s c u s', joinChannel s c u = Some s' → joinChannel s' c u = Some s') ∧
  (∀ s cl ul ch,
     heap_channels s !! cl = Some ch → map_bool (c_users ch) ul = true →
     joinChannel s (Some cl) (Some ul) = Some s).
Proof.
  split; [|split; [exact joinChannel_twice | exact joinChannel_member]].
  intros s c u. destruct (joinChannel s c u) as [s'|] eqn:E; [|done].
  simpl. exact (joinChannel_twice _ _ _ _ E).
Qed.

(** ** The names of channels *)

Section ChannelNames.
Variable lowercase : string → string.

(** C9, as the code has it. The channel [newChannel] creates is a new
    object with no member whose name is the lowercase form of the
    argument, and it is found under the argument in any letter case that
    has this lowercase form. *)
Theorem newChannel_name_lowercase s name s' cl :
  newChannel lowercase s name = Some (s', Some cl) →
  heap_channels s !! cl = None ∧
  heap_channels s' !! cl =
    Some {| c_name := lowercase name; c_users := ∅ |} ∧
  getChannel lowercase s' name = Some cl.
Proof.
  intros [[_ [=]] | (Hnone & Hb & [= ->] & ->)]%newChannel_inv.
  split; [apply new_channel_loc_fresh|].
  split; [apply lookup_insert_eq|].
  unfold getChannel. simpl. apply lookup_insert_eq.
Qed.
End ChannelNames.

(** C9, as stated, fails: the channel created for [#Chan] is named
    [#chan]. *)
Lemma newChannel_display_case_counterexample :
  ∃ s' cl ch,
    newChannel ascii_lowercase (newState config0) "#Chan"
      = Some (s', Some cl) ∧
    heap_channels s' !! cl = Some ch ∧
    c_name ch = "#chan" ∧ c_name ch ≠ "#Chan".
Proof.
  eexists _, _, _. split; [reflexivity|]. split; [by vm_compute|].
  split; [reflexivity|]. simpl. discriminate.
Qed.

(** ** Registration *)

Section Registration.
Variable lowercase : string → string.

(** C7. In [freshUserHandler], a USER message with fewer than three
    parameters, or whose [laxTrailing 3] is empty, is answered with
    [errorNeedMoreParams] and leaves handler and registry as they are;
    otherwise the first parameter is stored in the user's [user] field,
    the MOTD is sent and the next handler is the registered one: read
    back, the user then has that first parameter as its [user] and its
    other fields as before, and nothing else in the registry changes. *)
Theorem handleUser_spec user conn msg s :
  command msg = command cmdUser →
  (((length (params msg) < 3)%nat ∨ laxTrailing msg 3%Z = Some "") →
   freshUserHandler_handle lowercase user conn msg s =
     Some (freshUserHandler user, s,
           [SendNumeric (SinkUser user) errorNeedMoreParams])) ∧
  (∀ ul u,
     (3 ≤ length (params msg))%nat → laxTrailing msg 3%Z ≠ Some "" →
     user = Some ul → heap_users s !! ul = Some u →
     ∃ p0 s', params msg !! 0%nat = Some p0 ∧
       freshUserHandler_handle lowercase user conn msg s =
         Some (userHandler (u_nick u), s', [SendMOTD user]) ∧
       s' = set_heap_users <[ul := set_u_user p0 u]> s ∧
       heap_users s' !! ul =
         Some {| u_nick := u_nick u; u_user := p0;
                 u_channels := u_channels u; u_sink := u_sink u |} ∧
       (∀ l, l ≠ ul → heap_users s' !! l = heap_users s !! l) ∧
       s_config s' = s_config s ∧ s_users s' = s_users s ∧
       s_channels s' = s_channels s ∧
       heap_channels s' = heap_channels s).
Proof.
  intros Hcmd. unfold freshUserHandler_handle. rewrite Hcmd.
  rewrite decide_False by done. rewrite decide_False by (by intros []).
  unfold freshUserHandler_handleUser.
  pose proof (laxTrailing_nonneg msg 3) as Hlax.
  change (Z.of_nat 3) with 3%Z in Hlax.
  rewrite Hlax. simpl. unfold len_slice.
  set (t := if decide (trailing msg ≠ "") then _ else _) in *.
  split.
  - intros H. rewrite decide_True; [done|].
    destruct H as [H | [= H]]; [left; lia | by right].
  - intros ul u Hlen Ht -> Hu.
    rewrite decide_False by (intros [?|?]; [lia|congruence]).
    simpl. rewrite Hu. simpl.
    destruct (params msg) as [|p0 ps]; [simpl in Hlen; lia|].
    exists p0, (set_heap_users <[ul := set_u_user p0 u]> s).
    split; [done|]. split; [reflexivity|]. split; [reflexivity|].
    split; [simpl; apply lookup_insert_eq|].
    split; [intros l Hl; simpl; by rewrite lookup_insert_ne|done].
Qed.
End Registration.

(** ** The order in which [removeUser] visits the channels *)

Lemma removeFromChannel_eq s cl ul :
  removeFromChannel s (Some cl) (Some ul) =
  uo ← heap_users s !! ul;
  ch ← heap_channels s !! cl;
  let s1 := set_heap_users <[ul := set_u_channels (delete cl) uo]> s in
  Some (if map_bool (c_users ch) ul then
          let s2 := set_heap_channels
                      <[cl := set_c_users (delete ul) ch]> s1 in
          if decide (size (delete ul (c_users ch)) ≠ 0)
          then s2 else set_s_channels (delete (c_name ch)) s2
        else s1).
Proof.
  unfold removeFromChannel. simpl.
  destruct (heap_users s !! ul) as [uo|]; [|done]. simpl.
  destruct (heap_channels s !! cl) as [ch|]; [|done]. simpl.
  destruct (map_bool (c_users ch) ul); [|done]. simpl.
  rewrite lookup_insert_eq. simpl. by case_decide.
Qed.



Section VisitOrder.
Variable lowercase : string → string.

End VisitOrder.

(** ** The handlers stay within the reachable states *)

Section HandlersReach.
Variable lowercase : string → string.

Lemma exec_all_snoc s cs c :
  exec_all lowercase s (cs ++ [c])
  = (s' ← exec_all lowercase s cs; exec lowercase s' c).
Proof.
  revert s. induction cs as [|c0 cs IH]; intros s;
    cbn [exec_all app mbind option_bind].
  - destruct (exec lowercase s c); reflexivity.
  - destruct (exec lowercase s c0) as [s0|]; [apply IH|reflexivity].
Qed.

Lemma reachable_step s c s' :
  reachable lowercase s → exec lowercase s c = Some s' →
  reachable lowercase s'.
Proof.
  intros (config & cs & H) Hc. exists config, (cs ++ [c])%list.
  by rewrite exec_all_snoc, H.
Qed.

Lemma freshHandler_handle_reachable conn msg s h s' evs :
  reachable lowercase s →
  freshHandler_handle lowercase conn msg s = Some (h, s', evs) →
  reachable lowercase s'.
Proof.
  intros Hr. unfold freshHandler_handle, freshHandler_handleNick.
  destruct (decide (command msg = command cmdQuit)) as [Hq|Hq];
    [by intros; simplify_eq|].
  destruct (decide (command msg ≠ command cmdNick)) as [Hc|Hc];
    [by intros; simplify_eq|].
  destruct (decide (len_slice (params msg) < 1)%Z);
    [by intros; simplify_eq|].
  destruct (index_slice (params msg) 0%Z) as [nick|]; [|done].
  cbn [mbind option_bind].
  pose proof (reachable_step s (CallNewUser nick) _ Hr eq_refl) as Hr1.
  destruct (newUser lowercase s nick) as [s1 [ul|]]; simpl in Hr1;
    [|by intros; simplify_eq].
  destruct (heap_users s1 !! ul) as [u|] eqn:Hu; [|done].
  cbn [mbind option_bind].
  intros [= <- <- <-].
  apply (reachable_step s1 (AssignSink (Some ul) conn)); [done|].
  simpl. unfold assign_sink. simpl. by rewrite Hu.
Qed.

Lemma freshUserHandler_handle_reachable user conn msg s h s' evs :
  reachable lowercase s →
  freshUserHandler_handle lowercase user conn msg s = Some (h, s', evs) →
  reachable lowercase s'.
Proof.
  intros Hr. unfold freshUserHandler_handle, freshUserHandler_handleUser.
  destruct (decide (command msg = command cmdQuit)) as [Hq|Hq].
  { destruct (removeUser lowercase s user) as [s1|] eqn:E; [|done]. simpl.
    intros [= <- <- <-]. by apply (reachable_step s (CallRemoveUser user)). }
  destruct (decide (command msg ≠ command cmdUser)) as [Hc|Hc];
    [by intros; simplify_eq|].
  destruct (laxTrailing msg 3%Z) as [t|]; [|done].
  cbn [mbind option_bind].
  destruct (decide ((len_slice (params msg) < 3)%Z ∨ t = ""));
    [by intros; simplify_eq|].
  destruct user as [ul|]; [|done]. cbn [mbind option_bind].
  destruct (heap_users s !! ul) as [u|] eqn:Hu; [|done].
  cbn [mbind option_bind].
  destruct (index_slice (params msg) 0%Z) as [p0|]; [|done].
  cbn [mbind option_bind].
  intros [= <- <- <-].
  apply (reachable_step s (AssignUser (Some ul) p0)); [done|].
  simpl. unfold assign_user. simpl. by rewrite Hu.
Qed.

Lemma freshUserHandler_closed_reachable user c s s' evs :
  reachable lowercase s →
  freshUserHandler_closed lowercase user c s = Some (s', evs) →
  reachable lowercase s'.
Proof.
  intros Hr. unfold freshUserHandler_closed.
  destruct (removeUser lowercase s user) as [s1|] eqn:E; [|done]. simpl.
  intros [= <- <-]. by apply (reachable_step s (CallRemoveUser user)).
Qed.
End HandlersReach.

(** ** The statements at work on a concrete run *)

Lemma demo_reachable : reachable ascii_lowercase demo_registry.
Proof. exists config0, demo_calls. by vm_compute. Qed.

Lemma demo_alice_at : heap_users demo_registry !! 1%positive = Some demo_alice.
Proof. by vm_compute. Qed.

Lemma demo_chan_at : heap_channels demo_registry !! 1%positive = Some demo_chan.
Proof. by vm_compute. Qed.

Lemma toString_spec_witness :
  fst (toString (Message "" "PING" ["irc.example"] ""))
  = render (Message "" "PING" ["irc.example"] "").
Proof. apply (proj2 (proj2 (proj1 toString_spec _))). reflexivity. Defined.

Lemma newUser_spec_witness :
  ∃ ul,
    snd (newUser ascii_lowercase (newState config0) "Alice") = Some ul ∧
    newUser ascii_lowercase
      (fst (newUser ascii_lowercase (newState config0) "Alice")) "ALICE"
    = (fst (newUser ascii_lowercase (newState config0) "Alice"), nil).
Proof.
  destruct (proj1 (newUser_spec ascii_lowercase ascii_lowercase_length
                     (newState config0) "Alice"))
    as (ul & H1 & _ & _ & _ & _ & H6); [simpl; lia | reflexivity |].
  exists ul. split; [exact H1 | apply H6; reflexivity].
Defined.

Lemma newChannel_empty_name_faults_witness :
  newChannel ascii_lowercase demo_registry "" = None.
Proof.
  apply newChannel_empty_name_faults;
    [exact ascii_lowercase_length | exact demo_reachable].
Defined.

Lemma emptied_channel_is_recycled_witness :
  ∃ s', partChannel demo_registry (Some 1%positive) (Some 1%positive) "bye"
        = Some s' ∧
        getChannel ascii_lowercase s' "#chan" = nil.
Proof.
  destruct (proj1 (emptied_channel_is_recycled ascii_lowercase
                     ascii_lowercase_idem)
              demo_registry 1%positive 1%positive demo_chan "bye")
    as (s' & Hp & _ & Hg & _);
    [exact demo_reachable | exact demo_chan_at | reflexivity | reflexivity |].
  exists s'. split; [exact Hp | exact Hg].
Defined.

Lemma membership_symmetric_witness : symmetric demo_registry.
Proof.
  apply (proj2 (proj2 (membership_symmetric ascii_lowercase))).
  exact demo_reachable.
Defined.

Lemma handleUser_spec_witness :
  ∃ s',
    freshUserHandler_handle ascii_lowercase (Some 1%positive) 0%nat
      demo_user_message demo_registry
    = Some (userHandler "Alice", s', [SendMOTD (Some 1%positive)]) ∧
    heap_users s' !! 1%positive =
      Some {| u_nick := "Alice"; u_user := "alice";
              u_channels := {[1%positive := true]}; u_sink := None |} ∧
    s_users s' = s_users demo_registry.
Proof.
  destruct (proj2 (handleUser_spec ascii_lowercase (Some 1%positive) 0%nat
                     demo_user_message demo_registry eq_refl)
              1%positive demo_alice)
    as (p0 & s' & Hp0 & Hh & _ & Hu & _ & _ & Hs & _);
    [simpl; lia | by vm_compute | reflexivity | exact demo_alice_at |].
  injection Hp0 as <-. exists s'.
  split; [exact Hh|]. split; [exact Hu | exact Hs].
Defined.

Lemma joinChannel_idempotent_witness :
  joinChannel demo_registry (Some 1%positive) (Some 1%positive)
  = Some demo_registry.
Proof.
  apply (proj2 (proj2 joinChannel_idempotent) demo_registry 1%positive
           1%positive demo_chan); [exact demo_chan_at | reflexivity].
Defined.

Lemma newChannel_name_lowercase_witness :
  ∃ s', newChannel ascii_lowercase (newState config0) "#Chan"
        = Some (s', Some 1%positive) ∧
        heap_channels s' !! 1%positive
        = Some {| c_name := "#chan"; c_users := ∅ |}.
Proof.
  eexists. split; [reflexivity|].
  apply (proj1 (proj2 (newChannel_name_lowercase ascii_lowercase
                         (newState config0) "#Chan" _ 1%positive eq_refl))).
Defined.

Lemma empty_nickname_registers_witness :
  ∃ ul s'',
    freshHandler_handle ascii_lowercase 0%nat
      (Message "" "NICK" [""] "") (newState config0)
    = Some (freshUserHandler (Some ul), s'', []) ∧
    getUser ascii_lowercase s'' "" = Some ul.
Proof.
  destruct (empty_nickname_registers ascii_lowercase ascii_lowercase_length
              (newState config0) eq_refl)
    as (_ & ul & _ & _ & _ & Hh).
  destruct (Hh 0%nat (Message "" "NICK" [""] "") [] eq_refl eq_refl)
    as (s'' & H & Hg & _).
  exists ul, s''. split; [exact H | exact Hg].
Defined.

(** ** The registration scenarios *)

(** Scenario A: [NICK alice] then [USER alice 0 * :Alice A] registers
    alice, with her user name stored, and sends the MOTD. *)
Example scenario_A :
  ∃ s1 s2,
    freshHandler_handle ascii_lowercase 0%nat
      (Message "" "NICK" ["alice"] "") (newState config0)
    = Some (freshUserHandler (Some 1%positive), s1, []) ∧
    freshUserHandler_handle ascii_lowercase (Some 1%positive) 0%nat
      demo_user_message s1
    = Some (userHandler "alice", s2, [SendMOTD (Some 1%positive)]) ∧
    getUser ascii_lowercase s2 "alice" = Some 1%positive ∧
    u_user <$> heap_users s2 !! 1%positive = Some "alice".
Proof.
  eexists _, _. split; [reflexivity|]. split; [reflexivity|].
  split; by vm_compute.
Qed.

(** Scenario B: of two connections sending [NICK bob], the second is told
    that the nickname is in use and stays fresh. *)
Example scenario_B :
  ∃ s1,
    freshHandler_handle ascii_lowercase 0%nat
      (Message "" "NICK" ["bob"] "") (newState config0)
    = Some (freshUserHandler (Some 1%positive), s1, []) ∧
    freshHandler_handle ascii_lowercase 1%nat
      (Message "" "NICK" ["bob"] "") s1
    = Some (freshHandler, s1,
            [SendNumeric (SinkConnection 1%nat) errorNicknameInUse]).
Proof. eexists. split; [reflexivity | by vm_compute]. Qed.

(** Scenario C: [NICK carol] and then the connection closes: carol is no
    longer registered. *)
Example scenario_C :
  ∃ s1 s2,
    freshHandler_handle ascii_lowercase 0%nat
      (Message "" "NICK" ["carol"] "") (newState config0)
    = Some (freshUserHandler (Some 1%positive), s1, []) ∧
    freshUserHandler_closed ascii_lowercase (Some 1%positive) 0%nat s1
    = Some (s2, [Kill 0%nat]) ∧
    getUser ascii_lowercase s2 "carol" = nil.
Proof.
  eexists _, _. split; [reflexivity|]. split; [reflexivity | by vm_compute].
Qed.

(** ** Telling encoded messages apart *)

Lemma has_space_cons (c : ascii) (s : string) :
  has_space (String c s) ↔ c = " "%char ∨ has_space s.
Proof. unfold has_space. simpl. intuition congruence. Qed.

Lemma has_space_append (a b : string) :
  has_space (a +:+ b) ↔ has_space a ∨ has_space b.
Proof.
  induction a as [|c a IH].
  - rewrite append_nil_l. unfold has_space at 2. simpl. tauto.
  - rewrite append_cons, !has_space_cons, IH. tauto.
Qed.

Lemma CRLF_no_space : ¬ has_space CRLF.
Proof. unfold has_space, CRLF. simpl. intros [H|[H|[]]]; discriminate. Qed.

Lemma length_append (a b : string) :
  String.length (a +:+ b) = (String.length a + String.length b)%nat.
Proof.
  induction a as [|c a IH]; [done|]. rewrite append_cons. simpl. by rewrite IH.
Qed.

Lemma append_cancel_r (a a' r : string) : a +:+ r = a' +:+ r → a = a'.
Proof.
  revert a'. induction a as [|c a IH]; intros [|c' a'] H.
  - done.
  - apply (f_equal String.length) in H.
    rewrite append_nil_l, append_cons in H. simpl in H.
    rewrite length_append in H. lia.
  - apply (f_equal String.length) in H.
    rewrite append_nil_l, append_cons in H. simpl in H.
    rewrite length_append in H. lia.
  - rewrite !append_cons in H. injection H as -> H. f_equal. by apply IH.
Qed.

Lemma token_then_space (a a' r r' : string) :
  ¬ has_space a → ¬ has_space a' →
  a +:+ String " " r = a' +:+ String " " r' → a = a' ∧ r = r'.
Proof.
  revert a'. induction a as [|c a IH]; intros [|c' a'] Ha Ha' H.
  - rewrite !append_nil_l in H. by injection H as ->.
  - rewrite append_nil_l, append_cons in H. injection H as <- _.
    destruct Ha'. apply has_space_cons. by left.
  - rewrite append_nil_l, append_cons in H. injection H as -> _.
    destruct Ha. apply has_space_cons. by left.
  - rewrite !append_cons in H. injection H as -> H.
    rewrite has_space_cons in Ha, Ha'.
    destruct (IH a') as [-> ->]; [tauto..|done|done].
Qed.

Lemma token_cancel (a a' r r' : string) :
  ¬ has_space a → ¬ has_space a' → space_or_end r → space_or_end r' →
  a +:+ r = a' +:+ r' → a = a' ∧ r = r'.
Proof.
  intros Ha Ha' [[q ->] | ->] [[q' ->] | ->] H.
  - destruct (token_then_space _ _ _ _ Ha Ha' H) as [-> ->]. done.
  - exfalso. apply (f_equal has_space) in H.
    assert (has_space (a' +:+ CRLF)) as Hs.
    { rewrite <- H. apply has_space_append. right. apply has_space_cons. by left. }
    apply has_space_append in Hs as [?|?]; [done|by apply CRLF_no_space].
  - exfalso.
    assert (has_space (a +:+ CRLF)) as Hs.
    { rewrite H. apply has_space_append. right. apply has_space_cons. by left. }
    apply has_space_append in Hs as [?|?]; [done|by apply CRLF_no_space].
  - split; [|done]. by eapply append_cancel_r.
Qed.

Lemma render_tail_nil (t : string) :
  render_tail [] t = (if decide (t = "") then "" else " :" +:+ t) +:+ CRLF.
Proof. unfold render_tail. simpl. by rewrite append_nil_l. Qed.

Lemma render_tail_cons (p : string) (ps : list string) (t : string) :
  render_tail (p :: ps) t = String " " (p +:+ render_tail ps t).
Proof.
  unfold render_tail. cbn [render_params].
  by rewrite !append_assoc, append_cons, append_nil_l.
Qed.

Lemma render_tail_shape (ps : list string) (t : string) :
  space_or_end (render_tail ps t).
Proof.
  destruct ps as [|p ps].
  - rewrite render_tail_nil. case_decide; [by right|]. left.
    rewrite append_assoc, append_cons. eauto.
  - rewrite render_tail_cons. left. eauto.
Qed.

Lemma render_tail_inj (ps ps' : list string) (t t' : string) :
  Forall token ps → Forall token ps' →
  render_tail ps t = render_tail ps' t' → ps = ps' ∧ t = t'.
Proof.
  intros Hps. revert ps'.
  induction Hps as [|p ps [Hne [Hsp Hco]] Hps IH]; intros ps' Hps' H.
  - destruct Hps' as [|p' ps' [Hne' [Hsp' Hco']] Hps'].
    + split; [done|]. rewrite !render_tail_nil in H.
      destruct (decide (t = "")) as [->|Ht];
        destruct (decide (t' = "")) as [->|Ht']; [done|..].
      * rewrite append_nil_l, append_assoc, append_cons in H.
        discriminate.
      * rewrite append_nil_l, append_assoc, append_cons in H.
        discriminate.
      * apply append_cancel_r in H. rewrite !append_cons in H.
        by simplify_eq.
    + exfalso. rewrite render_tail_nil, render_tail_cons in H.
      destruct (decide (t = "")) as [->|Ht].
      * rewrite append_nil_l in H. discriminate.
      * rewrite append_assoc, !append_cons, append_nil_l in H.
        injection H as H. destruct p' as [|c p']; [done|].
        rewrite append_cons in H. injection H as <- _.
        apply Hco'. by eexists.
  - destruct Hps' as [|p' ps' [Hne' [Hsp' Hco']] Hps'].
    + exfalso. rewrite render_tail_nil, render_tail_cons in H.
      destruct (decide (t' = "")) as [->|Ht].
      * rewrite append_nil_l in H. discriminate.
      * rewrite append_assoc, !append_cons, append_nil_l in H.
        injection H as H. destruct p as [|c p]; [done|].
        rewrite append_cons in H. injection H as -> _.
        apply Hco. by eexists.
    + rewrite !render_tail_cons in H. injection H as H.
      apply token_cancel in H as [-> H]; [|done|done|apply render_tail_shape..].
      destruct (IH _ Hps' H) as [-> ->]. done.
Qed.

Lemma render_split (m : message) :
  render m =
  (if decide (prefix m = "") then "" else ":" +:+ prefix m +:+ " ")
  +:+ command m +:+ render_tail (params m) (trailing m).
Proof. reflexivity. Qed.

Lemma unambiguous_encodes (m : message) :
  unambiguous m → toString m = (render m, true).
Proof.
  intros (Hp & (Hne & Hsp & Hco) & Hps).
  destruct (toString_output m) as [H|H]; [|done]. exfalso.
  assert (snd (toString m) = false) as Hf by by rewrite H.
  apply toString_fails_iff in Hf as [?|(p & Hin & Hs)]; [done|].
  rewrite Forall_forall in Hps. apply list_elem_of_In in Hin.
  by destruct (Hps p Hin) as (_ & ? & _).
Qed.

(** X1. The encoding tells messages apart: two messages whose prefix
    holds no space and whose command and parameters are tokens, and
    which [toString] encodes to the same line, are the same message,
    trailing part included. *)
Theorem toString_injective (m1 m2 : message) :
  unambiguous m1 → unambiguous m2 →
  fst (toString m1) = fst (toString m2) → m1 = m2.
Proof.
  intros U1 U2. rewrite (unambiguous_encodes _ U1), (unambiguous_encodes _ U2).
  simpl. rewrite !render_split.
  destruct U1 as (Hp1 & (Hne1 & Hsp1 & Hco1) & Hps1).
  destruct U2 as (Hp2 & (Hne2 & Hsp2 & Hco2) & Hps2).
  destruct m1 as [x1 c1 ps1 t1], m2 as [x2 c2 ps2 t2]. simpl in *.
  intros H.
  assert (x1 = x2 ∧ c1 +:+ render_tail ps1 t1 = c2 +:+ render_tail ps2 t2)
    as [-> H'].
  { destruct (decide (x1 = "")) as [->|Hx1];
      destruct (decide (x2 = "")) as [->|Hx2].
    - by rewrite !append_nil_l in H.
    - exfalso. rewrite append_nil_l, !append_assoc, append_cons in H.
      destruct c1 as [|a c1]; [done|]. rewrite append_cons in H.
      injection H as -> _. apply Hco1. by eexists.
    - exfalso. rewrite append_nil_l, !append_assoc, append_cons in H.
      destruct c2 as [|a c2]; [done|]. rewrite append_cons in H.
      injection H as <- _. apply Hco2. by eexists.
    - rewrite !append_assoc, !append_cons, !append_nil_l in H.
      injection H as H.
      by apply token_then_space in H as [-> H]. }
  apply token_cancel in H' as [-> H']; [|done|done|apply render_tail_shape..].
  by apply render_tail_inj in H' as [-> ->].
Qed.

(** ** The modifiers and the encoder *)

Lemma bool_eq_false_iff (a b : bool) : (a = false ↔ b = false) → a = b.
Proof. destruct a, b; intuition congruence. Qed.

(** X2. [withPrefix] and [withTrailing] never change whether a message
    can be encoded; a message given new parameters by [withParams] can be
    encoded exactly when its command is not empty and none of the new
    parameters holds a space; and a trailing part that is not empty, once
    set by [withTrailing], is what [laxTrailing] returns for every
    index. *)
Theorem toString_modifiers (m : message) :
  (∀ p, snd (toString (withPrefix m p)) = snd (toString m)) ∧
  (∀ t, snd (toString (withTrailing m t)) = snd (toString m)) ∧
  (∀ ps, snd (toString (withParams m ps)) = true ↔
         command m ≠ "" ∧ ∀ q, In q ps → ¬ has_space q) ∧
  (∀ t n, t ≠ "" → laxTrailing (withTrailing m t) n = Some t).
Proof.
  split; [|split; [|split]].
  - intros p. apply bool_eq_false_iff. by rewrite !toString_fails_iff.
  - intros t. apply bool_eq_false_iff. by rewrite !toString_fails_iff.
  - intros ps. pose proof (toString_fails_iff (withParams m ps)) as H.
    simpl in H. destruct (snd (toString (withParams m ps))).
    + split; [intros _|done]. split.
      * intros Hc. assert (true = false); [|done]. apply H. by left.
      * intros q Hin Hs. assert (true = false); [|done]. apply H.
        right. eauto.
    + split; [done|]. intros [Hc Hps].
      destruct (proj1 H eq_refl) as [?|(q & Hin & Hs)]; [done|].
      by destruct (Hps q Hin).
  - intros t n Ht. unfold laxTrailing. simpl. by rewrite decide_True.
Qed.

(** ** Entries of the membership maps *)

Lemma entries_true_newState config : entries_true (newState config).
Proof.
  split; intros ? ? ? ? H; simpl in H; by rewrite lookup_empty in H.
Qed.

Lemma entries_true_same_heaps s s' :
  heap_users s' = heap_users s → heap_channels s' = heap_channels s →
  entries_true s → entries_true s'.
Proof. intros Hu Hc [H1 H2]. split; rewrite ?Hu, ?Hc; eauto. Qed.

Lemma entries_true_update_channel s cl ch f :
  (∀ ul b, f (c_users ch) !! ul = Some b → b = true) →
  entries_true s →
  entries_true (set_heap_channels <[cl := set_c_users f ch]> s).
Proof.
  intros Hf [H1 H2]. split; [|exact H2].
  intros cl' ch' ul b Hc Hb. simpl in Hc.
  destruct (decide (cl' = cl)) as [->|Hne].
  - rewrite lookup_insert_eq in Hc. simplify_eq. simpl in Hb. eauto.
  - rewrite lookup_insert_ne in Hc by done. eauto.
Qed.

Lemma entries_true_update_user s ul u' :
  (∀ cl b, u_channels u' !! cl = Some b → b = true) →
  entries_true s → entries_true (set_heap_users <[ul := u']> s).
Proof.
  intros Hf [H1 H2]. split; [exact H1|].
  intros ul' u0 cl b Hu Hb. simpl in Hu.
  destruct (decide (ul' = ul)) as [->|Hne].
  - rewrite lookup_insert_eq in Hu. simplify_eq. eauto.
  - rewrite lookup_insert_ne in Hu by done. eauto.
Qed.

Lemma entries_true_joinChannel s c u s' :
  entries_true s → joinChannel s c u = Some s' → entries_true s'.
Proof.
  unfold joinChannel. intros Hs H.
  destruct c as [cl|]; [|done]. simpl in H.
  destruct (heap_channels s !! cl) as [ch|] eqn:Hch; [|done]. simpl in H.
  destruct u as [ul|]; simpl in H; [|done].
  destruct (map_bool (c_users ch) ul) eqn:Hm; [by simplify_eq|].
  destruct (heap_users s !! ul) as [uo|] eqn:Hu; [|done]. simpl in H.
  simplify_eq. destruct Hs as [H1 H2].
  apply entries_true_update_user.
  - intros cl' b. simpl. destruct (decide (cl' = cl)) as [->|Hne].
    + rewrite lookup_insert_eq. congruence.
    + rewrite lookup_insert_ne by done. eauto.
  - apply entries_true_update_channel; [|done].
    intros ul' b. destruct (decide (ul' = ul)) as [->|Hne].
    + rewrite lookup_insert_eq. congruence.
    + rewrite lookup_insert_ne by done. eauto.
Qed.

Lemma entries_true_removeFromChannel s c u s' :
  entries_true s → removeFromChannel s c u = Some s' → entries_true s'.
Proof.
  intros Hs (cl & ul & uo & ch & -> & -> & Hu & Hch & H)%removeFromChannel_inv.
  simpl in H. pose proof Hs as [H1 H2].
  assert (entries_true
            (set_heap_users <[ul := set_u_channels (delete cl) uo]> s)) as Hs1.
  { apply entries_true_update_user; [|done].
    intros cl' b Hb. simpl in Hb.
    apply lookup_delete_Some in Hb as [_ Hb]. eauto. }
  destruct (map_bool (c_users ch) ul); [|by subst].
  assert (entries_true
            (set_heap_channels <[cl := set_c_users (delete ul) ch]>
               (set_heap_users <[ul := set_u_channels (delete cl) uo]> s)))
    as Hs2.
  { apply entries_true_update_channel; [|done].
    intros ul' b Hb. apply lookup_delete_Some in Hb as [_ Hb]. eauto. }
  destruct (decide (size (delete ul (c_users ch)) ≠ 0)); subst s'; [done|].
  by eapply entries_true_same_heaps; [| |exact Hs2].
Qed.

Lemma entries_true_forChannels s ul order s' :
  entries_true s →
  forChannels order (λ s ch, partChannel s ch (Some ul) "QUITing") s = Some s' →
  entries_true s'.
Proof.
  revert s. induction order as [|cl order IH]; intros s Hs H;
    cbn [forChannels] in H.
  - by simplify_eq.
  - destruct (partChannel s (Some cl) (Some ul) "QUITing") as [s1|] eqn:E;
      simpl in H; [|done].
    eapply IH; [|exact H].
    eapply entries_true_removeFromChannel; [exact Hs|exact E].
Qed.

Section EntriesTrue.
Variable lowercase : string → string.

Lemma entries_true_exec s c s' :
  entries_true s → exec lowercase s c = Some s' → entries_true s'.
Proof.
  intros Hs.
  destruct c as [nick|u|name|ch|ch u|ch u reason|ch u|u conn|u name]; simpl.
  - intros [= <-]. unfold newUser. case_decide; [done|].
    destruct (isValidNick _); simpl; [|done].
    apply entries_true_update_user; [|done].
    intros cl b Hb. simpl in Hb. by rewrite lookup_empty in Hb.
  - unfold removeUser, removeUser_in.
    destruct (deref_user s u) as [uo|]; [|done]. simpl.
    destruct u as [ul|]; [|done]. simpl.
    destruct (heap_users s !! ul) as [uo'|]; [|done]. simpl.
    destruct (forChannels _ _ _) as [s1|] eqn:E; [|done]. simpl.
    intros [= <-]. apply (entries_true_same_heaps s1); [done..|].
    eapply entries_true_forChannels; [exact Hs|exact E].
  - destruct (newChannel lowercase s name) as [[s1 r]|] eqn:E; [|done].
    intros [= <-].
    apply newChannel_inv in E as [[-> _] | (_ & _ & _ & ->)]; [done|].
    destruct Hs as [H1 H2]. split; [|exact H2].
    intros cl ch ul b Hc Hb. simpl in Hc.
    destruct (decide (cl = new_channel_loc s)) as [->|Hne].
    + rewrite lookup_insert_eq in Hc. by simplify_eq.
    + rewrite lookup_insert_ne in Hc by done. eauto.
  - intros (Hu & Hc & _)%recycleChannel_heaps.
    by eapply entries_true_same_heaps.
  - by apply entries_true_joinChannel.
  - by apply entries_true_removeFromChannel.
  - by apply entries_true_removeFromChannel.
  - intros (ul & uo & -> & Hu & ->)%assign_sink_inv. destruct Hs as [H1 H2].
    apply entries_true_update_user; [simpl; eauto|done].
  - intros (ul & uo & -> & Hu & ->)%assign_user_inv. destruct Hs as [H1 H2].
    apply entries_true_update_user; [simpl; eauto|done].
Qed.

Lemma entries_true_reachable s : reachable lowercase s → entries_true s.
Proof.
  intros (config & cs & H).
  eapply (exec_all_invariant lowercase entries_true);
    [apply entries_true_exec| |exact H].
  apply entries_true_newState.
Qed.

(** In a reachable state the keys of the membership maps are the
    members, and they refer to live objects on both sides. *)
Lemma member_keys s cl ch ul :
  reachable lowercase s → heap_channels s !! cl = Some ch →
  (is_Some (c_users ch !! ul) ↔ channel_has_user s cl ul).
Proof.
  intros [H1 _]%entries_true_reachable Hc.
  rewrite (channel_has_user_at _ _ _ _ Hc). unfold map_bool. split.
  - intros [b Hb]. rewrite Hb. simpl. eauto.
  - destruct (c_users ch !! ul); [eauto|done].
Qed.

Lemma channel_keys s ul u cl :
  reachable lowercase s → heap_users s !! ul = Some u →
  (is_Some (u_channels u !! cl) ↔ user_has_channel s ul cl).
Proof.
  intros [_ H2]%entries_true_reachable Hu.
  rewrite (user_has_channel_at _ _ _ _ Hu). unfold map_bool. split.
  - intros [b Hb]. rewrite Hb. simpl. eauto.
  - destruct (u_channels u !! cl); [eauto|done].
Qed.

(** X3. In every state the registry can reach, an entry of a channel's
    member map is [true] and belongs to an allocated user whose own map
    has the channel with [true], and the other way round: the maps hold
    no [false] entry and no stale pointer. *)
Theorem membership_maps_sound s :
  reachable lowercase s →
  (∀ cl ch ul, heap_channels s !! cl = Some ch →
     is_Some (c_users ch !! ul) →
     c_users ch !! ul = Some true ∧
     ∃ u, heap_users s !! ul = Some u ∧ u_channels u !! cl = Some true) ∧
  (∀ ul u cl, heap_users s !! ul = Some u →
     is_Some (u_channels u !! cl) →
     u_channels u !! cl = Some true ∧
     ∃ ch, heap_channels s !! cl = Some ch ∧ c_users ch !! ul = Some true).
Proof.
  intros Hr. pose proof (entries_true_reachable s Hr) as [H1 H2].
  pose proof (symmetric_reachable lowercase s Hr) as Hsym.
  split.
  - intros cl ch ul Hc [b Hb]. pose proof (H1 _ _ _ _ Hc Hb) as ->.
    split; [done|].
    destruct (proj1 (Hsym ul cl)) as (u & Hu & Hm).
    { exists ch. split; [done|]. unfold map_bool. by rewrite Hb. }
    exists u. split; [done|]. unfold map_bool in Hm.
    destruct (u_channels u !! cl) as [b|] eqn:E; [|done].
    by rewrite (H2 _ _ _ _ Hu E).
  - intros ul u cl Hu [b Hb]. pose proof (H2 _ _ _ _ Hu Hb) as ->.
    split; [done|].
    destruct (proj2 (Hsym ul cl)) as (ch & Hc & Hm).
    { exists u. split; [done|]. unfold map_bool. by rewrite Hb. }
    exists ch. split; [done|]. unfold map_bool in Hm.
    destruct (c_users ch !! ul) as [b|] eqn:E; [|done].
    by rewrite (H1 _ _ _ _ Hc E).
Qed.
End EntriesTrue.

(** ** The directory of users *)

Lemma nicks_kept_refl s : nicks_kept s s.
Proof. intros ul u Hu. eauto. Qed.

Lemma nicks_kept_trans s1 s2 s3 :
  nicks_kept s1 s2 → nicks_kept s2 s3 → nicks_kept s1 s3.
Proof.
  intros H1 H2 ul u Hu. destruct (H1 _ _ Hu) as (u' & Hu' & <-).
  destruct (H2 _ _ Hu') as (u'' & Hu'' & <-). eauto.
Qed.

Lemma nicks_kept_same_users s s' :
  heap_users s' = heap_users s → nicks_kept s s'.
Proof. intros Hh ul u Hu. rewrite Hh. eauto. Qed.

Lemma nicks_kept_update s ul u u' :
  heap_users s !! ul = Some u → u_nick u' = u_nick u →
  nicks_kept s (set_heap_users <[ul := u']> s).
Proof.
  intros Hu Hn ul' u0 Hu0. simpl. destruct (decide (ul' = ul)) as [->|Hne].
  - rewrite lookup_insert_eq. simplify_eq. eauto.
  - rewrite lookup_insert_ne by done. eauto.
Qed.

Lemma removeFromChannel_users s c u s' :
  removeFromChannel s c u = Some s' →
  ∃ cl ul uo, c = Some cl ∧ u = Some ul ∧ heap_users s !! ul = Some uo ∧
    heap_users s' = <[ul := set_u_channels (delete cl) uo]> (heap_users s) ∧
    s_users s' = s_users s.
Proof.
  intros (cl & ul & uo & ch & -> & -> & Hu & Hch & H)%removeFromChannel_inv.
  exists cl, ul, uo. repeat split; try done; simpl in H;
    destruct (map_bool (c_users ch) ul); try (by subst);
    destruct (decide (size (delete ul (c_users ch)) ≠ 0)); by subst.
Qed.

Lemma joinChannel_users s c u s' :
  joinChannel s c u = Some s' →
  nicks_kept s s' ∧ s_users s' = s_users s.
Proof.
  unfold joinChannel. intros H.
  destruct c as [cl|]; [|done]. simpl in H.
  destruct (heap_channels s !! cl) as [ch|] eqn:Hch; [|done]. simpl in H.
  destruct u as [ul|]; simpl in H; [|done].
  destruct (map_bool (c_users ch) ul) eqn:Hm.
  { simplify_eq. split; [apply nicks_kept_refl|done]. }
  destruct (heap_users s !! ul) as [uo|] eqn:Hu; [|done]. simpl in H.
  simplify_eq. split; [|done].
  intros ul' u0 Hu0. simpl. destruct (decide (ul' = ul)) as [->|Hne].
  - rewrite lookup_insert_eq. simplify_eq. eauto.
  - rewrite lookup_insert_ne by done. eauto.
Qed.

Lemma removeFromChannel_nicks s c u s' :
  removeFromChannel s c u = Some s' →
  nicks_kept s s' ∧ s_users s' = s_users s.
Proof.
  intros (cl & ul & uo & -> & -> & Hu & Hh & Hs)%removeFromChannel_users.
  split; [|done]. intros ul' u0 Hu0. rewrite Hh.
  destruct (decide (ul' = ul)) as [->|Hne].
  - rewrite lookup_insert_eq. simplify_eq. eauto.
  - rewrite lookup_insert_ne by done. eauto.
Qed.

Lemma forChannels_part_nicks ul order s s' :
  forChannels order (λ s ch, partChannel s ch (Some ul) "QUITing") s = Some s' →
  nicks_kept s s' ∧ s_users s' = s_users s.
Proof.
  revert s. induction order as [|cl order IH]; intros s H;
    cbn [forChannels] in H.
  - simplify_eq. split; [apply nicks_kept_refl|done].
  - destruct (partChannel s (Some cl) (Some ul) "QUITing") as [s1|] eqn:E;
      simpl in H; [|done].
    unfold partChannel in E. apply removeFromChannel_nicks in E as [N1 U1].
    apply IH in H as [N2 U2]. split; [by eapply nicks_kept_trans|congruence].
Qed.

Section UsersDirectory.
Variable lowercase : string → string.

Lemma users_ok_newState config : users_ok lowercase (newState config).
Proof. intros k ul H. simpl in H. by rewrite lookup_empty in H. Qed.

Lemma users_ok_step s s' :
  nicks_kept s s' → s_users s' ⊆ s_users s →
  users_ok lowercase s → users_ok lowercase s'.
Proof.
  intros Hn Hsub Hok k ul H. eapply lookup_weaken in H; [|exact Hsub].
  destruct (Hok _ _ H) as (u & Hu & Hk & Hlen).
  destruct (Hn _ _ Hu) as (u' & Hu' & Hnick). exists u'.
  by rewrite Hnick.
Qed.

Lemma users_ok_newUser s nick :
  users_ok lowercase s → users_ok lowercase (fst (newUser lowercase s nick)).
Proof.
  intros Hok. unfold newUser. case_decide as Hreg; [done|].
  destruct (isValidNick (lowercase nick)) eqn:Hv; simpl; [|done].
  pose proof (new_user_loc_fresh s) as Hfresh.
  intros k ul H. simpl in *.
  destruct (decide (k = lowercase nick)) as [->|Hne].
  - rewrite lookup_insert_eq in H. simplify_eq. rewrite lookup_insert_eq.
    eexists. split; [done|]. split; [done|].
    by apply isValidNick_length.
  - rewrite lookup_insert_ne in H by done.
    destruct (Hok _ _ H) as (u & Hu & Hk & Hlen). exists u.
    rewrite lookup_insert_ne by congruence. done.
Qed.

Lemma users_ok_exec s c s' :
  users_ok lowercase s → exec lowercase s c = Some s' →
  users_ok lowercase s'.
Proof.
  intros Hok.
  destruct c as [nick|u|name|ch|ch u|ch u reason|ch u|u conn|u name]; simpl.
  - intros [= <-]. by apply users_ok_newUser.
  - unfold removeUser, removeUser_in.
    destruct (deref_user s u) as [uo|]; [|done]. simpl.
    destruct u as [ul|]; [|done]. simpl.
    destruct (heap_users s !! ul) as [uo'|]; [|done]. simpl.
    destruct (forChannels _ _ _) as [s1|] eqn:E; [|done]. simpl.
    intros [= <-]. apply forChannels_part_nicks in E as [N U].
    apply (users_ok_step s); [exact N| |done].
    simpl. rewrite U. apply delete_subseteq.
  - destruct (newChannel lowercase s name) as [[s1 r]|] eqn:E; [|done].
    intros [= <-].
    apply newChannel_inv in E as [[-> _] | (_ & _ & _ & ->)]; [done|].
    apply (users_ok_step s); [by apply nicks_kept_same_users|done|done].
  - intros (Hu & _ & Hs)%recycleChannel_heaps.
    apply (users_ok_step s); [by apply nicks_kept_same_users| |done].
    by rewrite Hs.
  - intros [N U]%joinChannel_users.
    apply (users_ok_step s); [done| |done]. by rewrite U.
  - unfold partChannel. intros [N U]%removeFromChannel_nicks.
    apply (users_ok_step s); [done| |done]. by rewrite U.
  - intros [N U]%removeFromChannel_nicks.
    apply (users_ok_step s); [done| |done]. by rewrite U.
  - intros (ul & uo & -> & Hu & ->)%assign_sink_inv.
    apply (users_ok_step s); [by eapply nicks_kept_update|done|done].
  - intros (ul & uo & -> & Hu & ->)%assign_user_inv.
    apply (users_ok_step s); [by eapply nicks_kept_update|done|done].
Qed.

Lemma users_ok_reachable s : reachable lowercase s → users_ok lowercase s.
Proof.
  intros (config & cs & H).
  eapply (exec_all_invariant lowercase (users_ok lowercase));
    [apply users_ok_exec| |exact H].
  apply users_ok_newState.
Qed.

(** X4. In every state the registry can reach, a key of the user
    directory is the lowercase nickname of the user it leads to and is at
    most nine bytes long, a key of the channel directory is the name of
    the channel it leads to and begins with [#] or [&], and no object is
    listed under two keys. *)
Theorem directories_sound s :
  reachable lowercase s →
  (∀ k ul, s_users s !! k = Some ul →
     ∃ u, heap_users s !! ul = Some u ∧ lowercase (u_nick u) = k ∧
          (String.length k ≤ 9)%nat) ∧
  (∀ k cl, s_channels s !! k = Some cl →
     ∃ ch, heap_channels s !! cl = Some ch ∧ c_name ch = k ∧
           (index_string k 0%Z = Some "#"%char ∨
            index_string k 0%Z = Some "&"%char)) ∧
  (∀ k k' ul, s_users s !! k = Some ul → s_users s !! k' = Some ul → k = k') ∧
  (∀ k k' cl,
     s_channels s !! k = Some cl → s_channels s !! k' = Some cl → k = k').
Proof.
  intros Hr. pose proof (users_ok_reachable s Hr) as Hu.
  pose proof (directory_ok_reachable lowercase s Hr) as [Hreg Hnames].
  split; [exact Hu|]. split; [|split].
  - intros k cl H. destruct (Hreg _ _ H) as (ch & Hc & <-).
    exists ch. split; [done|]. split; [done|]. by apply (Hnames _ _ Hc).
  - intros k k' ul H H'. destruct (Hu _ _ H) as (u & Hl & <- & _).
    destruct (Hu _ _ H') as (u' & Hl' & <- & _). congruence.
  - intros k k' cl H H'. destruct (Hreg _ _ H) as (ch & Hl & <-).
    destruct (Hreg _ _ H') as (ch' & Hl' & <-). congruence.
Qed.
End UsersDirectory.

(** ** Removing a user *)

Lemma removeFromChannel_returns s cl ul :
  is_Some (heap_users s !! ul) → is_Some (heap_channels s !! cl) →
  is_Some (removeFromChannel s (Some cl) (Some ul)).
Proof.
  intros [u Hu] [ch Hc]. rewrite removeFromChannel_eq, Hu. simpl.
  rewrite Hc. simpl. eauto.
Qed.

Lemma forChannels_part_returns ul order s :
  is_Some (heap_users s !! ul) →
  (∀ cl, cl ∈ order → is_Some (heap_channels s !! cl)) →
  is_Some (forChannels order
             (λ s ch, partChannel s ch (Some ul) "QUITing") s).
Proof.
  revert s. induction order as [|cl order IH]; intros s Hu Hc;
    cbn [forChannels]; [eauto|].
  destruct (removeFromChannel_returns s cl ul) as [s1 E];
    [done|apply Hc; set_solver|].
  change (partChannel s (Some cl) (Some ul) "QUITing")
    with (removeFromChannel s (Some cl) (Some ul)).
  rewrite E. cbn [mbind option_bind].
  pose proof (removeFromChannel_nicks _ _ _ _ E) as [N _].
  pose proof (removeFromChannel_steps _ _ _ _ E) as (K & _).
  apply IH.
  - destruct Hu as [u Hu]. destruct (N _ _ Hu) as (u' & Hu' & _). eauto.
  - intros cl' Hin. destruct (Hc cl') as [ch Hch]; [set_solver|].
    destruct (K _ _ Hch) as (ch' & Hch' & _). eauto.
Qed.

Lemma forChannels_part_user ul order s s' u :
  heap_users s !! ul = Some u →
  forChannels order (λ s ch, partChannel s ch (Some ul) "QUITing") s = Some s' →
  ∃ u', heap_users s' !! ul = Some u' ∧ u_nick u' = u_nick u ∧
    ∀ cl, u_channels u' !! cl =
          if decide (cl ∈ order) then None else u_channels u !! cl.
Proof.
  revert s u. induction order as [|cl0 order IH]; intros s u Hu H;
    cbn [forChannels] in H.
  - simplify_eq. exists u. split; [done|]. split; [done|].
    intros cl. rewrite decide_False; [done|set_solver].
  - destruct (partChannel s (Some cl0) (Some ul) "QUITing") as [s1|] eqn:E;
      cbn [mbind option_bind] in H; [|done].
    unfold partChannel in E.
    apply removeFromChannel_users in E
      as (cl & ul' & uo & [= <-] & [= <-] & Hu0 & Hh & _).
    simplify_eq.
    destruct (IH s1 (set_u_channels (delete cl0) u)) as (u' & Hu' & Hn & Hl);
      [by rewrite Hh, lookup_insert_eq|exact H|].
    exists u'. split; [done|]. split; [done|]. intros cl. rewrite Hl. simpl.
    destruct (decide (cl = cl0)) as [->|Hne].
    + rewrite lookup_delete_eq.
      destruct (decide (cl0 ∈ order)), (decide (cl0 ∈ cl0 :: order));
        try done; set_solver.
    + rewrite lookup_delete_ne by done.
      destruct (decide (cl ∈ order)), (decide (cl ∈ cl0 :: order));
        try done; set_solver.
Qed.

Section RemoveUser.
Variable lowercase : string → string.

Lemma removeUser_effect s ul u :
  reachable lowercase s → heap_users s !! ul = Some u →
  ∃ s' u',
    removeUser lowercase s (Some ul) = Some s' ∧
    heap_users s' !! ul = Some u' ∧ u_nick u' = u_nick u ∧
    u_channels u' = ∅ ∧
    (∀ cl, ¬ channel_has_user s' cl ul) ∧
    getUser lowercase s' (u_nick u) = nil ∧
    (∀ k, k ≠ lowercase (u_nick u) → s_users s' !! k = s_users s !! k).
Proof.
  intros Hr Hu.
  pose proof (symmetric_reachable lowercase s Hr) as Hsym.
  set (order := elements (dom (u_channels u))).
  destruct (forChannels_part_returns ul order s) as [s1 E]; [eauto| |].
  { intros cl Hin. apply elem_of_elements, elem_of_dom in Hin.
    apply (channel_keys lowercase s ul u cl Hr Hu) in Hin.
    apply Hsym in Hin as (ch & Hch & _). eauto. }
  assert (Hrm : removeUser lowercase s (Some ul)
                = Some (set_s_users (delete (lowercase (u_nick u))) s1)).
  { unfold removeUser, deref_user, removeUser_in.
    cbn [mbind option_bind]. rewrite Hu. cbn [mbind option_bind].
    fold order. by rewrite E. }
  destruct (forChannels_part_user _ _ _ _ _ Hu E) as (u' & Hu' & Hn & Hl).
  destruct (forChannels_part_nicks _ _ _ _ E) as [_ Hdir].
  assert (Hempty : u_channels u' = ∅).
  { apply map_empty. intros cl. rewrite Hl.
    destruct (decide (cl ∈ order)) as [Hin|Hin]; [done|].
    apply not_elem_of_dom. intros Hd. apply Hin. by apply elem_of_elements. }
  eexists _, u'. split; [exact Hrm|]. split; [exact Hu'|].
  split; [exact Hn|]. split; [exact Hempty|]. split; [|split].
  - intros cl Hc.
    assert (symmetric (set_s_users (delete (lowercase (u_nick u))) s1)) as Hs'.
    { apply (symmetric_reachable lowercase).
      by apply (reachable_step lowercase s (CallRemoveUser (Some ul))). }
    apply Hs' in Hc as (u0 & Hu0 & Hm). simpl in Hu0. simplify_eq.
    rewrite Hempty in Hm. by rewrite map_bool_empty in Hm.
  - unfold getUser. simpl. apply lookup_delete_eq.
  - intros k Hk. simpl. rewrite lookup_delete_ne by done. by rewrite Hdir.
Qed.

(** X5. [removeUser] on a user of a reachable state does not fault, and
    afterwards the user object has its nickname but no channel, no
    channel has the user as a member, the nickname is free again, and
    every other entry of the user directory is as before. *)
Theorem removeUser_leaves_nothing s ul u :
  reachable lowercase s → heap_users s !! ul = Some u →
  ∃ s' u',
    removeUser lowercase s (Some ul) = Some s' ∧
    heap_users s' !! ul = Some u' ∧ u_nick u' = u_nick u ∧
    u_channels u' = ∅ ∧
    (∀ cl, ¬ channel_has_user s' cl ul) ∧
    getUser lowercase s' (u_nick u) = nil ∧
    (∀ k, k ≠ lowercase (u_nick u) → s_users s' !! k = s_users s !! k).
Proof. apply removeUser_effect. Qed.
End RemoveUser.

(** ** Joining and parting *)

(** X6. A user who joins a channel it was not in and then parts leaves
    the registry as it was when the channel had other members; when it
    had none, the channel is removed from the directory and nothing else
    changes. *)
Theorem join_then_part s cl ul ch u reason :
  heap_channels s !! cl = Some ch → heap_users s !! ul = Some u →
  c_users ch !! ul = None → u_channels u !! cl = None →
  (s1 ← joinChannel s (Some cl) (Some ul);
   partChannel s1 (Some cl) (Some ul) reason)
  = Some (if decide (size (c_users ch) ≠ 0) then s
          else set_s_channels (delete (c_name ch)) s).
Proof.
  intros Hc Hu Hcu Huc.
  unfold joinChannel. cbn [mbind option_bind]. rewrite Hc.
  cbn [mbind option_bind from_option]. unfold map_bool at 1. rewrite Hcu.
  cbn [default]. cbn [mbind option_bind]. rewrite Hu.
  cbn [mbind option_bind].
  unfold partChannel. rewrite removeFromChannel_eq.
  destruct s as [cfg dir usr hu hc], ch as [name users],
    u as [nick user chans snk]. simpl in *.
  rewrite !lookup_insert_eq. simpl.
  unfold map_bool. rewrite lookup_insert_eq. simpl.
  unfold set_heap_channels, set_heap_users, set_s_channels, set_c_users,
    set_u_channels. simpl.
  rewrite !delete_insert_id by done.
  rewrite !insert_insert_eq, !insert_id by done.
  by destruct (decide (size users ≠ 0)).
Qed.

Section NotAMember.
Variable lowercase : string → string.

(** X7. [removeFromChannel] on a user who is not a member of the channel
    changes nothing in a reachable state: in particular it does not
    recycle the channel. *)
Theorem removeFromChannel_not_a_member s cl ul ch u :
  reachable lowercase s →
  heap_channels s !! cl = Some ch → heap_users s !! ul = Some u →
  ¬ channel_has_user s cl ul →
  removeFromChannel s (Some cl) (Some ul) = Some s.
Proof.
  intros Hr Hc Hu Hnot.
  pose proof (symmetric_reachable lowercase s Hr) as Hsym.
  assert (Hm : map_bool (c_users ch) ul = false).
  { destruct (map_bool (c_users ch) ul) eqn:E; [|done].
    destruct Hnot. by exists ch. }
  assert (Hk : u_channels u !! cl = None).
  { destruct (u_channels u !! cl) as [b|] eqn:E; [|done]. destruct Hnot.
    apply Hsym. apply (channel_keys lowercase s ul u cl Hr Hu). eauto. }
  rewrite removeFromChannel_eq, Hu. simpl. rewrite Hc. simpl. rewrite Hm.
  f_equal. destruct s as [cfg dir usr hu hc], u as [nick user chans snk].
  simpl in *. unfold set_heap_users, set_u_channels. simpl.
  rewrite delete_id by done. by rewrite insert_id.
Qed.
End NotAMember.

(** ** The fresh handler *)

Section FreshHandler.
Variable lowercase : string → string.

Lemma handleNick_no_param conn msg s :
  params msg = [] →
  freshHandler_handleNick lowercase conn msg s
  = Some (freshHandler, s,
          [SendNumeric (SinkConnection conn) errorNoNicknameGiven]).
Proof. intros H. unfold freshHandler_handleNick. by rewrite H. Qed.

Lemma handleNick_refused conn msg s nick rest :
  params msg = nick :: rest →
  getUser lowercase s nick ≠ nil ∨
    (9 < String.length (lowercase nick))%nat →
  freshHandler_handleNick lowercase conn msg s
  = Some (freshHandler, s,
          [SendNumeric (SinkConnection conn) errorNicknameInUse]).
Proof.
  intros H Hbad. unfold freshHandler_handleNick. rewrite H.
  rewrite decide_False by (unfold len_slice; simpl; lia).
  cbn [index_slice decide]. simpl.
  assert (newUser lowercase s nick = (s, nil)) as ->; [|done].
  destruct Hbad as [Hreg|Hlen].
  - by apply newUser_registered.
  - apply newUser_invalid.
    destruct (isValidNick (lowercase nick)) eqn:E; [|done].
    apply isValidNick_length in E. lia.
Qed.

Lemma handleNick_accepted conn msg s nick rest :
  params msg = nick :: rest →
  getUser lowercase s nick = nil →
  (String.length (lowercase nick) ≤ 9)%nat →
  freshHandler_handleNick lowercase conn msg s
  = Some (freshUserHandler (Some (new_user_loc s)),
          set_heap_users
            <[new_user_loc s :=
                {| u_nick := nick; u_user := ""; u_channels := ∅;
                   u_sink := Some conn |}]>
            (set_s_users <[lowercase nick := new_user_loc s]> s),
          []).
Proof.
  intros H Hfree Hlen. unfold freshHandler_handleNick. rewrite H.
  rewrite decide_False by (unfold len_slice; simpl; lia).
  cbn [index_slice decide]. simpl.
  rewrite (newUser_fresh lowercase s nick Hfree)
    by by apply isValidNick_length.
  simpl. rewrite lookup_insert_eq. simpl.
  unfold set_heap_users, set_s_users, set_u_sink. simpl.
  by rewrite insert_insert_eq.
Qed.

Lemma freshHandler_nick_cases conn msg s :
  command msg = command cmdNick →
  (params msg = [] →
   freshHandler_handle lowercase conn msg s
   = Some (freshHandler, s,
           [SendNumeric (SinkConnection conn) errorNoNicknameGiven])) ∧
  (∀ nick rest,
     params msg = nick :: rest →
     getUser lowercase s nick ≠ nil ∨
       (9 < String.length (lowercase nick))%nat →
     freshHandler_handle lowercase conn msg s
     = Some (freshHandler, s,
             [SendNumeric (SinkConnection conn) errorNicknameInUse])) ∧
  (∀ nick rest,
     params msg = nick :: rest →
     getUser lowercase s nick = nil →
     (String.length (lowercase nick) ≤ 9)%nat →
     ∃ ul s',
       freshHandler_handle lowercase conn msg s
       = Some (freshUserHandler (Some ul), s', []) ∧
       heap_users s !! ul = None ∧
       heap_users s' !! ul
       = Some {| u_nick := nick; u_user := ""; u_channels := ∅;
                 u_sink := Some conn |} ∧
       getUser lowercase s' nick = Some ul ∧
       (∀ k, k ≠ lowercase nick → s_users s' !! k = s_users s !! k) ∧
       (∀ l, l ≠ ul → heap_users s' !! l = heap_users s !! l) ∧
       s_channels s' = s_channels s ∧ heap_channels s' = heap_channels s).
Proof.
  intros Hcmd.
  assert (Hh : freshHandler_handle lowercase conn msg s
               = freshHandler_handleNick lowercase conn msg s).
  { unfold freshHandler_handle. rewrite Hcmd.
    rewrite decide_False by done. by rewrite decide_False by (by intros []). }
  rewrite Hh. split; [apply handleNick_no_param|].
  split; [apply handleNick_refused|].
  intros nick rest Hps Hfree Hlen.
  rewrite (handleNick_accepted conn msg s nick rest Hps Hfree Hlen).
  eexists _, _. split; [done|]. split; [apply new_user_loc_fresh|].
  simpl. split; [apply lookup_insert_eq|].
  split; [unfold getUser; simpl; apply lookup_insert_eq|].
  split; [intros k Hk; by rewrite lookup_insert_ne|].
  split; [intros l Hl; by rewrite lookup_insert_ne|done].
Qed.

(** X8. A NICK message to [freshHandler]: without a parameter it is
    answered with [errorNoNicknameGiven]; with a first parameter that is
    taken, or longer than nine bytes in lowercase, with
    [errorNicknameInUse], handler and registry staying as they are;
    otherwise a new user object is allocated with that nickname, an empty
    user name, no channels and the connection as its sink, it is
    registered under the nickname, nothing else in the registry changes,
    no reply is sent, and the next handler is [freshUserHandler] for that
    user. *)
Theorem freshHandler_nick conn msg s :
  command msg = command cmdNick →
  (params msg = [] →
   freshHandler_handle lowercase conn msg s
   = Some (freshHandler, s,
           [SendNumeric (SinkConnection conn) errorNoNicknameGiven])) ∧
  (∀ nick rest,
     params msg = nick :: rest →
     getUser lowercase s nick ≠ nil ∨
       (9 < String.length (lowercase nick))%nat →
     freshHandler_handle lowercase conn msg s
     = Some (freshHandler, s,
             [SendNumeric (SinkConnection conn) errorNicknameInUse])) ∧
  (∀ nick rest,
     params msg = nick :: rest →
     getUser lowercase s nick = nil →
     (String.length (lowercase nick) ≤ 9)%nat →
     ∃ ul s',
       freshHandler_handle lowercase conn msg s
       = Some (freshUserHandler (Some ul), s', []) ∧
       heap_users s !! ul = None ∧
       heap_users s' !! ul
       = Some {| u_nick := nick; u_user := ""; u_channels := ∅;
                 u_sink := Some conn |} ∧
       getUser lowercase s' nick = Some ul ∧
       (∀ k, k ≠ lowercase nick → s_users s' !! k = s_users s !! k) ∧
       (∀ l, l ≠ ul → heap_users s' !! l = heap_users s !! l) ∧
       s_channels s' = s_channels s ∧ heap_channels s' = heap_channels s).
Proof. apply freshHandler_nick_cases. Qed.

(** X9. [freshHandler.handle] returns on every message and every
    registry, and keeps a reachable registry reachable: QUIT kills the
    connection and ends in [nullHandler] with the registry untouched;
    the handler stays [freshHandler], with the registry untouched, on
    every message that is ignored or refused; and it becomes
    [freshUserHandler] only on a NICK whose first parameter is then
    registered to the user handed over. *)
Theorem freshHandler_never_faults conn msg s :
  ∃ h s' evs,
    freshHandler_handle lowercase conn msg s = Some (h, s', evs) ∧
    (reachable lowercase s → reachable lowercase s') ∧
    match h with
    | nullHandler =>
        command msg = command cmdQuit ∧ s' = s ∧ evs = [Kill conn]
    | freshHandler =>
        s' = s ∧
        (evs = [] ∨ (command msg = command cmdNick ∧ ∃ n, evs =
           [SendNumeric (SinkConnection conn) n]))
    | freshUserHandler user =>
        command msg = command cmdNick ∧ evs = [] ∧
        ∃ nick, index_slice (params msg) 0%Z = Some nick ∧
                getUser lowercase s' nick = user ∧ user ≠ nil
    | userHandler _ => False
    end.
Proof.
  assert (Hreach : ∀ h s' evs,
            freshHandler_handle lowercase conn msg s = Some (h, s', evs) →
            reachable lowercase s → reachable lowercase s').
  { intros h s' evs H Hr. by eapply freshHandler_handle_reachable. }
  destruct (decide (command msg = command cmdQuit)) as [Hq|Hq].
  { exists nullHandler, s, [Kill conn].
    assert (freshHandler_handle lowercase conn msg s
            = Some (nullHandler, s, [Kill conn])) as H.
    { unfold freshHandler_handle. by rewrite decide_True. }
    split; [done|]. split; [by eapply Hreach|done]. }
  destruct (decide (command msg = command cmdNick)) as [Hn|Hn].
  - destruct (freshHandler_nick_cases conn msg s Hn) as (H0 & H1 & H2).
    destruct (params msg) as [|nick rest] eqn:Hps.
    + eexists _, _, _. split; [by apply H0|]. split; [done|].
      split; [done|]. right. eauto.
    + destruct (decide (getUser lowercase s nick = nil)) as [Hfree|Hreg].
      * destruct (decide (String.length (lowercase nick) ≤ 9)%nat)
          as [Hlen|Hlen].
        -- destruct (H2 nick rest eq_refl Hfree Hlen)
             as (ul & s' & H & _ & _ & Hg & _).
           eexists _, _, _. split; [exact H|].
           split; [by eapply Hreach|].
           split; [done|]. split; [done|]. exists nick. done.
        -- eexists _, _, _. split; [apply (H1 nick rest eq_refl); right; lia|].
           split; [done|]. split; [done|]. right. eauto.
      * eexists _, _, _. split; [apply (H1 nick rest eq_refl); by left|].
        split; [done|]. split; [done|]. right. eauto.
  - exists freshHandler, s, []. split.
    + unfold freshHandler_handle. rewrite decide_False by done.
      by rewrite decide_True.
    + split; [done|]. split; [done|by left].
Qed.
End FreshHandler.

(** ** The handler of a connection that has a nickname *)

Lemma handleUser_cases user conn msg s :
  ∃ t, laxTrailing msg 3%Z = Some t ∧
    if decide ((length (params msg) < 3)%nat ∨ t = "") then
      freshUserHandler_handleUser user conn msg s
      = Some (freshUserHandler user, s,
              [SendNumeric (SinkUser user) errorNeedMoreParams])
    else
      ∃ p0, params msg !! 0%nat = Some p0 ∧
        freshUserHandler_handleUser user conn msg s
        = (ul ← user; u ← heap_users s !! ul;
           Some (userHandler (u_nick u),
                 set_heap_users <[ul := set_u_user p0 u]> s,
                 [SendMOTD user])).
Proof.
  pose proof (laxTrailing_nonneg msg 3) as Hlax.
  change (Z.of_nat 3) with 3%Z in Hlax. eexists. split; [exact Hlax|].
  unfold freshUserHandler_handleUser. rewrite Hlax.
  cbn [mbind option_bind]. unfold len_slice.
  set (t := if decide (trailing msg ≠ "") then _ else _).
  destruct (decide ((length (params msg) < 3)%nat ∨ t = "")) as [H|H].
  - rewrite decide_True; [done|]. destruct H; [left; lia|by right].
  - rewrite decide_False by (intros [?|?]; apply H; [left; lia|by right]).
    destruct (params msg) as [|p0 ps] eqn:Hps.
    { destruct H. left. simpl. lia. }
    exists p0. split; [done|].
    destruct user as [ul|]; [|done]. cbn [mbind option_bind].
    by destruct (heap_users s !! ul).
Qed.

Section FreshUserHandler.
Variable lowercase : string → string.

Lemma freshUserHandler_leaves s ul u conn msg :
  reachable lowercase s → heap_users s !! ul = Some u →
  command msg = command cmdQuit →
  ∃ s',
    freshUserHandler_handle lowercase (Some ul) conn msg s
    = Some (nullHandler, s', [Kill conn]) ∧
    freshUserHandler_closed lowercase (Some ul) conn s
    = Some (s', [Kill conn]) ∧
    reachable lowercase s' ∧
    getUser lowercase s' (u_nick u) = nil ∧
    (∀ cl, ¬ channel_has_user s' cl ul).
Proof.
  intros Hr Hu Hcmd.
  destruct (removeUser_effect lowercase s ul u Hr Hu)
    as (s' & u' & Hrm & _ & _ & _ & Hno & Hg & _).
  exists s'. unfold freshUserHandler_handle, freshUserHandler_closed.
  rewrite decide_True by done. rewrite Hrm. cbn [mbind option_bind].
  split; [done|]. split; [done|]. split; [|done].
  by apply (reachable_step lowercase s (CallRemoveUser (Some ul))).
Qed.

(** X10. For a connection that has a nickname, a QUIT message and a
    closed connection have the same effect: the connection is killed, the
    user is removed, its nickname is free again and no channel has it as a
    member. *)
Theorem freshUserHandler_quit_or_close s ul u conn msg :
  reachable lowercase s → heap_users s !! ul = Some u →
  command msg = command cmdQuit →
  ∃ s',
    freshUserHandler_handle lowercase (Some ul) conn msg s
    = Some (nullHandler, s', [Kill conn]) ∧
    freshUserHandler_closed lowercase (Some ul) conn s
    = Some (s', [Kill conn]) ∧
    reachable lowercase s' ∧
    getUser lowercase s' (u_nick u) = nil ∧
    (∀ cl, ¬ channel_has_user s' cl ul).
Proof. apply freshUserHandler_leaves. Qed.

(** X11. [freshUserHandler.handle], for a user of a reachable registry,
    returns on every message with a reachable registry: QUIT ends in
    [nullHandler]; a USER message that is accepted ends in [userHandler]
    for the user's nickname with the MOTD sent; on everything else the
    handler and the registry stay as they are, and a reply is sent only
    to a USER message that is refused. *)
Theorem freshUserHandler_never_faults s ul u conn msg :
  reachable lowercase s → heap_users s !! ul = Some u →
  ∃ h s' evs,
    freshUserHandler_handle lowercase (Some ul) conn msg s
    = Some (h, s', evs) ∧
    reachable lowercase s' ∧
    match h with
    | nullHandler => command msg = command cmdQuit ∧ evs = [Kill conn]
    | freshUserHandler user =>
        user = Some ul ∧ s' = s ∧
        (evs = [] ∨
         (command msg = command cmdUser ∧
          evs = [SendNumeric (SinkUser (Some ul)) errorNeedMoreParams]))
    | userHandler nick =>
        command msg = command cmdUser ∧ nick = u_nick u ∧
        evs = [SendMOTD (Some ul)]
    | freshHandler => False
    end.
Proof.
  intros Hr Hu.
  destruct (decide (command msg = command cmdQuit)) as [Hq|Hq].
  { destruct (freshUserHandler_leaves s ul u conn msg Hr Hu Hq)
      as (s' & H & _ & Hr' & _).
    by exists nullHandler, s', [Kill conn]. }
  destruct (decide (command msg = command cmdUser)) as [Hc|Hc].
  - assert (Hh : freshUserHandler_handle lowercase (Some ul) conn msg s
                 = freshUserHandler_handleUser (Some ul) conn msg s).
    { unfold freshUserHandler_handle. rewrite decide_False by done.
      by rewrite decide_False by (by intros []). }
    destruct (handleUser_cases (Some ul) conn msg s) as (t & Ht & H).
    destruct (decide ((length (params msg) < 3)%nat ∨ t = "")).
    + eexists _, _, _. rewrite Hh. split; [exact H|]. split; [done|].
      split; [done|]. split; [done|]. by right.
    + destruct H as (p0 & Hp0 & H). cbn [mbind option_bind] in H.
      rewrite Hu in H. cbn [mbind option_bind] in H.
      eexists _, _, _. rewrite Hh. split; [exact H|]. split; [|done].
      apply (reachable_step lowercase s (AssignUser (Some ul) p0)); [done|].
      simpl. unfold assign_user. cbn [mbind option_bind]. by rewrite Hu.
  - exists (freshUserHandler (Some ul)), s, []. split.
    + unfold freshUserHandler_handle. rewrite decide_False by done.
      by rewrite decide_True.
    + split; [done|]. split; [done|]. split; [done|by left].
Qed.

(** X12. Registration end to end: a NICK message with a free nickname
    of at most nine bytes, followed by a USER message with three
    parameters and a trailing part, takes a connection from
    [freshHandler] to [userHandler] for that nickname, and the registry
    then has the user under the nickname with the first parameter of the
    USER message as its user name and the first connection as its
    sink. *)
Theorem registration_completes s conn conn' nick rest pfx tr msg :
  getUser lowercase s nick = nil →
  (String.length (lowercase nick) ≤ 9)%nat →
  command msg = command cmdUser →
  (3 ≤ length (params msg))%nat → laxTrailing msg 3%Z ≠ Some "" →
  ∃ ul s1 s2 name,
    freshHandler_handle lowercase conn
      (Message pfx (command cmdNick) (nick :: rest) tr) s
    = Some (freshUserHandler (Some ul), s1, []) ∧
    freshUserHandler_handle lowercase (Some ul) conn' msg s1
    = Some (userHandler nick, s2, [SendMOTD (Some ul)]) ∧
    params msg !! 0%nat = Some name ∧
    heap_users s2 !! ul
    = Some {| u_nick := nick; u_user := name; u_channels := ∅;
              u_sink := Some conn |} ∧
    getUser lowercase s2 nick = Some ul.
Proof.
  intros Hfree Hlen Hcmd Hps Htr.
  set (m := Message pfx (command cmdNick) (nick :: rest) tr).
  assert (H1 : freshHandler_handle lowercase conn m s
               = freshHandler_handleNick lowercase conn m s) by done.
  rewrite (handleNick_accepted lowercase conn m s nick rest eq_refl
             Hfree Hlen) in H1.
  set (ul := new_user_loc s) in *.
  set (s1 := set_heap_users _ _) in H1.
  assert (Hh : freshUserHandler_handle lowercase (Some ul) conn' msg s1
               = freshUserHandler_handleUser (Some ul) conn' msg s1).
  { unfold freshUserHandler_handle. rewrite Hcmd.
    rewrite decide_False by done. by rewrite decide_False by (by intros []). }
  destruct (handleUser_cases (Some ul) conn' msg s1) as (t & Ht & H).
  rewrite decide_False in H by (intros [?|?]; [lia|congruence]).
  destruct H as (p0 & Hp0 & H). cbn [mbind option_bind] in H.
  assert (Hu1 : heap_users s1 !! ul
                = Some {| u_nick := nick; u_user := ""; u_channels := ∅;
                          u_sink := Some conn |})
    by apply lookup_insert_eq.
  rewrite Hu1 in H. cbn [mbind option_bind] in H.
  eexists ul, s1, _, p0. split; [exact H1|]. rewrite Hh.
  split; [exact H|]. split; [exact Hp0|].
  split; [simpl; apply lookup_insert_eq|].
  unfold getUser. simpl. apply lookup_insert_eq.
Qed.
End FreshUserHandler.

(** ** One link at a time *)

(** X13. [joinChannel] adds exactly the link between the channel and the
    user given, and [removeFromChannel] removes exactly that link: the
    membership of every other pair is as before. *)
Theorem one_link_at_a_time s cl ul s' :
  (joinChannel s (Some cl) (Some ul) = Some s' →
   ∀ cl' ul', channel_has_user s' cl' ul' ↔
              (cl' = cl ∧ ul' = ul) ∨ channel_has_user s cl' ul') ∧
  (removeFromChannel s (Some cl) (Some ul) = Some s' →
   ∀ cl' ul', channel_has_user s' cl' ul' ↔
              channel_has_user s cl' ul' ∧ ¬ (cl' = cl ∧ ul' = ul)).
Proof.
  split.
  - unfold joinChannel. cbn [mbind option_bind]. intros H.
    destruct (heap_channels s !! cl) as [ch|] eqn:Hch; [|done].
    cbn [mbind option_bind from_option] in H.
    destruct (map_bool (c_users ch) ul) eqn:Hm.
    { simplify_eq. intros cl' ul'. split; [tauto|].
      intros [[-> ->]|?]; [|done]. by exists ch. }
    destruct (heap_users s !! ul) as [uo|] eqn:Hu; [|done].
    cbn [mbind option_bind] in H. simplify_eq. intros cl' ul'.
    etrans; [exact (channel_has_user_update s cl ch <[ul:=true]> cl' ul')|].
    destruct (decide (cl' = cl)) as [->|Hne].
    + rewrite map_bool_insert, (channel_has_user_at _ _ _ _ Hch). tauto.
    + tauto.
  - intros (cl0 & ul0 & uo & ch & [= <-] & [= <-] & Hu & Hch & H)%removeFromChannel_inv.
    simpl in H. intros cl' ul'.
    destruct (map_bool (c_users ch) ul) eqn:Hm.
    + assert (channel_has_user s' cl' ul' ↔
              channel_has_user
                (set_heap_channels <[cl:=set_c_users (delete ul) ch]> s)
                cl' ul') as ->.
      { destruct (decide (size (delete ul (c_users ch)) ≠ 0)); by subst. }
      rewrite channel_has_user_update.
      destruct (decide (cl' = cl)) as [->|Hne].
      * rewrite map_bool_delete, (channel_has_user_at _ _ _ _ Hch). tauto.
      * tauto.
    + subst s'.
      assert (channel_has_user
                (set_heap_users <[ul:=set_u_channels (delete cl) uo]> s)
                cl' ul' ↔ channel_has_user s cl' ul') as -> by done.
      split; [|tauto]. intros Hc. split; [done|]. intros [-> ->].
      apply (channel_has_user_at _ _ _ _ Hch) in Hc. congruence.
Qed.

(** ** Going through the directories *)



Section Visits.
Variable lowercase : string → string.

End Visits.

(** ** The labels the webhooks list *)

Lemma other_labels (m : gmap string string) (kvs : list (string * string)) :
  kvs ≡ₚ map_to_list m →
  filter (λ kv, ¬ (kv.1 = "alertname" ∨ kv.1 = "severity")) kvs
  ≡ₚ map_to_list (delete "alertname" (delete "severity" m)).
Proof.
  intros Hp. apply NoDup_Permutation.
  - apply NoDup_filter. rewrite Hp. apply NoDup_map_to_list.
  - apply NoDup_map_to_list.
  - intros [k v]. rewrite list_elem_of_filter, Hp, !elem_of_map_to_list.
    simpl. rewrite !lookup_delete_Some. intuition congruence.
Qed.

Lemma append_pairs_filter (kvs : list (string * string)) (text : string) :
  api.append_pairs kvs text
  = text +:+
    foldr (λ kv acc, kv.1 +:+ ":" +:+ kv.2 +:+ "," +:+ acc) ""
      (filter (λ kv, ¬ (kv.1 = "alertname" ∨ kv.1 = "severity")) kvs).
Proof.
  revert text. induction kvs as [|[k v] kvs IH]; intros text; simpl.
  - by rewrite append_nil_r.
  - rewrite filter_cons. simpl.
    destruct (decide (k = "alertname" ∨ k = "severity")) as [Hs|Hs].
    + rewrite decide_False by tauto. apply IH.
    + rewrite decide_True by tauto. rewrite IH. simpl.
      by rewrite !append_assoc.
Qed.

Lemma collect_labels_filter (kvs : list (string * string))
    (labels : list string) :
  web.collect_labels kvs labels
  = (labels ++
     map (λ kv, kv.1 +:+ "=" +:+ kv.2)
       (filter (λ kv, ¬ (kv.1 = "alertname" ∨ kv.1 = "severity")) kvs))%list.
Proof.
  revert labels. induction kvs as [|[k v] kvs IH]; intros labels; simpl.
  - by rewrite app_nil_r.
  - rewrite filter_cons. simpl.
    destruct (decide (k = "alertname" ∨ k = "severity")) as [Hs|Hs].
    + rewrite decide_False by tauto. apply IH.
    + rewrite decide_True by tauto. rewrite IH. simpl.
      by rewrite <- app_assoc.
Qed.

(** X15. The label loops of the two webhooks, in whatever order the
    runtime yields the map, list every label except [alertname] and
    [severity] once: as [k:v,] appended to the text by the API webhook,
    as [k=v] collected by the web one. *)
Theorem webhook_labels_listed (m : gmap string string)
    (kvs : list (string * string)) :
  kvs ≡ₚ map_to_list m →
  ∃ shown,
    shown ≡ₚ map_to_list (delete "alertname" (delete "severity" m)) ∧
    (∀ text, api.append_pairs kvs text
             = text +:+
               foldr (λ kv acc, kv.1 +:+ ":" +:+ kv.2 +:+ "," +:+ acc) ""
                 shown) ∧
    web.collect_labels kvs [] = map (λ kv, kv.1 +:+ "=" +:+ kv.2) shown.
Proof.
  intros Hp. eexists. split; [by apply other_labels|].
  split; [intros text; apply append_pairs_filter|].
  by rewrite collect_labels_filter.
Qed.

(** ** What the webhooks store and answer *)

Section ApiWebhook.
Variable Time : Type.
Variable MessageSource : Type.
Variable zeroSource : MessageSource.

End ApiWebhook.

Section WebWebhook.
Variable Data : Type.
Variable Status : Data → string.
Variable GroupLabels CommonLabels CommonAnnotations :
  Data → gmap string string.
Variable ExternalURL : Data → string.
Variable template : Type.
Variable execute : template → Data → string * option string.
Variable MessageSource : Type.
Variable MessageSourceWebhook : MessageSource.

Local Abbreviation webhook :=
  (web.webhookAlertManager Data Status GroupLabels CommonLabels
     CommonAnnotations ExternalURL template execute MessageSource
     MessageSourceWebhook).

(** X17. The web webhook panics exactly when the value stored under
    [caller] is not a pointer to a caller or is a [nil] one, or when a
    caller with one capability sent a body that decodes and one of the
    two templates does not parse. *)
Theorem web_webhook_panics
    (caller : option web.ctx_value) (bindJSON : Data + string)
    (labels : list (string * string))
    (titleTemplate contentTemplate : template + string) (now : Z)
    (save : storage.Message MessageSource → option string) :
  webhook caller bindJSON labels titleTemplate contentTemplate now save
    = None ↔
  caller = Some web.OtherValue ∨
  caller = Some (web.CallerPointer None) ∨
  ∃ c msg,
    caller = Some (web.CallerPointer (Some c)) ∧
    length (auth.Caps c) = 1%nat ∧ bindJSON = inl msg ∧
    ((∃ e, titleTemplate = inr e) ∨ (∃ e, contentTemplate = inr e)).
Proof.
  unfold web.webhookAlertManager.
  destruct caller as [[[[name caps]|]|]|]; simpl; try naive_solver.
  destruct caps as [|cap [|cap' caps]]; simpl; try naive_solver.
  destruct bindJSON as [msg|err]; [|naive_solver].
  destruct titleTemplate as [tt|e1]; [|naive_solver].
  destruct contentTemplate as [ct|e2]; [|naive_solver].
  destruct (execute tt msg) as [out1 [err1|]]; [naive_solver|].
  destruct (execute ct msg) as [out2 [err2|]]; [naive_solver|].
  cbn [index_slice]. simpl.
  match goal with |- context [save ?m] => destruct (save m) end;
    naive_solver.
Qed.

(** X18. When the web webhook returns, it has handed at most one
    message to the store: sent by the caller to the caller's only
    capability, marked as coming from a webhook, with the rendered title
    as its title and, as its Markdown, the title followed by the rendered
    content, since both templates write to the same buffer.  It answers
    exactly once, with the success answer exactly when the store accepted
    the message, and otherwise with status 400, 403 or 500. *)
Theorem web_webhook_outcome
    (caller : option web.ctx_value) (bindJSON : Data + string)
    (labels : list (string * string))
    (titleTemplate contentTemplate : template + string) (now : Z)
    (save : storage.Message MessageSource → option string) evs :
  webhook caller bindJSON labels titleTemplate contentTemplate now save
    = Some evs →
  (∀ m, In (Save m) evs →
     ∃ c msg tt ct title content,
       caller = Some (web.CallerPointer (Some c)) ∧ bindJSON = inl msg ∧
       titleTemplate = inl tt ∧ contentTemplate = inl ct ∧
       execute tt msg = (title, None) ∧ execute ct msg = (content, None) ∧
       auth.Caps c = [storage.To _ m] ∧
       storage.From _ m = auth.Name c ∧
       storage.Title _ m = title ∧
       storage.Markdown _ m = title +:+ content ∧
       storage.Text _ m
       = web.text Data Status GroupLabels CommonLabels CommonAnnotations
           ExternalURL labels msg ∧
       storage.Color _ m = "#2eb886" ∧
       storage.Source _ m = MessageSourceWebhook ∧
       storage.Timestamp _ m = now) ∧
  (length (List.filter is_save evs) ≤ 1)%nat ∧
  length (List.filter is_respond evs) = 1%nat ∧
  (In (Respond (gin.JSON 200 {["status" := "success"]})) evs ↔
   ∃ m, In (Save m) evs ∧ save m = None) ∧
  (∀ r, In (Respond r) evs →
     r = gin.JSON 200 {["status" := "success"]} ∨
     ∃ code obj, r = gin.AbortWithStatusJSON code obj ∧
                 (code = 400 ∨ code = 403 ∨ code = 500)%Z).
Proof.
  unfold web.webhookAlertManager.
  destruct caller as [[[[name caps]|]|]|]; simpl; try done;
    [destruct caps as [|cap [|cap' caps]]; simpl;
     [|destruct bindJSON as [msg|err];
       [destruct titleTemplate as [tt|e1]; [|done];
        destruct contentTemplate as [ct|e2]; [|done];
        destruct (execute tt msg) as [out1 [err1|]] eqn:E1;
        [|destruct (execute ct msg) as [out2 [err2|]] eqn:E2;
          [|cbn [index_slice]; simpl;
            match goal with |- context [save ?m] =>
              destruct (save m) as [err|] eqn:Hs end]]|]|]|];
    intros [= <-]; simpl;
    (split; [|split; [lia|split; [lia|split]]]);
    try (intros; naive_solver).
  all: intros m [[= <-]|[|[]]]; [|done];
    exists {| auth.Name := name; auth.Caps := [cap] |}, msg, tt, ct,
      out1, out2; by rewrite append_nil_l.
Qed.
End WebWebhook.

(** ** The further statements at work *)

Lemma demo_unjoined_reachable : reachable ascii_lowercase demo_unjoined.
Proof.
  exists config0, [CallNewUser "Alice"; CallNewChannel "#Chan"].
  by vm_compute.
Qed.

Lemma demo_newcomer_at :
  heap_users demo_unjoined !! 1%positive = Some demo_newcomer.
Proof. by vm_compute. Qed.

Lemma demo_channel_at :
  heap_channels demo_unjoined !! 1%positive = Some demo_channel.
Proof. by vm_compute. Qed.

Lemma demo_unambiguous :
  unambiguous (Message "srv" "PRIVMSG" ["#chan"] "hi").
Proof.
  assert (∀ s, ¬ has_space s → s ≠ "" → ¬ starts_with_colon s → token s)
    as Htok by (by intros s ? ? ?).
  split; [|split]; simpl.
  - unfold has_space. simpl. intuition discriminate.
  - apply Htok; [unfold has_space; simpl; intuition discriminate|done|].
    by intros [r [=]].
  - constructor; [|constructor].
    apply Htok; [unfold has_space; simpl; intuition discriminate|done|].
    by intros [r [=]].
Qed.

Lemma toString_injective_witness :
  Message "srv" "PRIVMSG" ["#chan"] "hi"
  = withTrailing (Message "srv" "PRIVMSG" ["#chan"] "") "hi".
Proof.
  apply toString_injective;
    [exact demo_unambiguous | exact demo_unambiguous | reflexivity].
Defined.

Lemma toString_modifiers_witness :
  laxTrailing (withTrailing (Message "" "USER" [] "") "Alice A") 3%Z
  = Some "Alice A".
Proof.
  apply (proj2 (proj2 (proj2 (toString_modifiers (Message "" "USER" [] ""))))).
  discriminate.
Defined.

Lemma membership_maps_sound_witness :
  c_users demo_chan !! 1%positive = Some true ∧
  ∃ u, heap_users demo_registry !! 1%positive = Some u ∧
       u_channels u !! 1%positive = Some true.
Proof.
  apply (proj1 (membership_maps_sound ascii_lowercase demo_registry
                  demo_reachable) 1%positive demo_chan 1%positive);
    [exact demo_chan_at | by eexists].
Defined.

Lemma directories_sound_witness :
  ∃ u, heap_users demo_registry !! 1%positive = Some u ∧
       ascii_lowercase (u_nick u) = "alice" ∧
       (String.length "alice" ≤ 9)%nat.
Proof.
  apply (proj1 (directories_sound ascii_lowercase demo_registry
                  demo_reachable) "alice" 1%positive).
  by vm_compute.
Defined.

Lemma removeUser_leaves_nothing_witness :
  ∃ s', removeUser ascii_lowercase demo_registry (Some 1%positive) = Some s' ∧
        getUser ascii_lowercase s' "Alice" = nil.
Proof.
  destruct (removeUser_leaves_nothing ascii_lowercase demo_registry
              1%positive demo_alice demo_reachable demo_alice_at)
    as (s' & u' & H & _ & _ & _ & _ & Hg & _).
  exists s'. split; [exact H | exact Hg].
Defined.

Lemma join_then_part_witness :
  (s1 ← joinChannel demo_unjoined (Some 1%positive) (Some 1%positive);
   partChannel s1 (Some 1%positive) (Some 1%positive) "bye")
  = Some (set_s_channels (delete "#chan") demo_unjoined).
Proof.
  apply (join_then_part demo_unjoined 1%positive 1%positive demo_channel
           demo_newcomer "bye" demo_channel_at demo_newcomer_at);
    reflexivity.
Defined.

Lemma removeFromChannel_not_a_member_witness :
  removeFromChannel demo_unjoined (Some 1%positive) (Some 1%positive)
  = Some demo_unjoined.
Proof.
  apply (removeFromChannel_not_a_member ascii_lowercase demo_unjoined
           1%positive 1%positive demo_channel demo_newcomer
           demo_unjoined_reachable demo_channel_at demo_newcomer_at).
  intros (ch & Hc & Hm). vm_compute in Hc. injection Hc as <-.
  by vm_compute in Hm.
Defined.

Lemma one_link_at_a_time_witness :
  channel_has_user demo_registry 1%positive 1%positive.
Proof.
  apply (proj1 (one_link_at_a_time demo_unjoined 1%positive 1%positive
                  demo_registry));
    [by vm_compute | by left].
Defined.



Lemma freshHandler_nick_witness :
  freshHandler_handle ascii_lowercase 0%nat
    (Message "" "NICK" ["ALICE"] "") demo_registry
  = Some (freshHandler, demo_registry,
          [SendNumeric (SinkConnection 0%nat) errorNicknameInUse]).
Proof.
  apply (proj1 (proj2 (freshHandler_nick ascii_lowercase 0%nat
                         (Message "" "NICK" ["ALICE"] "") demo_registry
                         eq_refl)) "ALICE" []);
    [reflexivity | left; by vm_compute].
Defined.

Lemma freshHandler_never_faults_witness :
  ∃ h s' evs,
    freshHandler_handle ascii_lowercase 0%nat
      (Message "" "PING" [] "") demo_registry = Some (h, s', evs) ∧
    reachable ascii_lowercase s'.
Proof.
  destruct (freshHandler_never_faults ascii_lowercase 0%nat
              (Message "" "PING" [] "") demo_registry)
    as (h & s' & evs & H & Hr & _).
  exists h, s', evs. split; [exact H | exact (Hr demo_reachable)].
Defined.

Lemma freshUserHandler_quit_or_close_witness :
  ∃ s',
    freshUserHandler_closed ascii_lowercase (Some 1%positive) 0%nat
      demo_registry = Some (s', [Kill 0%nat]) ∧
    getUser ascii_lowercase s' "Alice" = nil.
Proof.
  destruct (freshUserHandler_quit_or_close ascii_lowercase demo_registry
              1%positive demo_alice 0%nat (Message "" "QUIT" [] "")
              demo_reachable demo_alice_at eq_refl)
    as (s' & _ & H & _ & Hg & _).
  exists s'. split; [exact H | exact Hg].
Defined.

Lemma freshUserHandler_never_faults_witness :
  ∃ h s' evs,
    freshUserHandler_handle ascii_lowercase (Some 1%positive) 0%nat
      demo_user_message demo_registry = Some (h, s', evs) ∧
    reachable ascii_lowercase s'.
Proof.
  destruct (freshUserHandler_never_faults ascii_lowercase demo_registry
              1%positive demo_alice 0%nat demo_user_message
              demo_reachable demo_alice_at)
    as (h & s' & evs & H & Hr & _).
  exists h, s', evs. split; [exact H | exact Hr].
Defined.

Lemma registration_completes_witness :
  ∃ ul s1 s2,
    freshHandler_handle ascii_lowercase 0%nat
      (Message "" "NICK" ["bob"] "") demo_registry
    = Some (freshUserHandler (Some ul), s1, []) ∧
    freshUserHandler_handle ascii_lowercase (Some ul) 0%nat
      demo_user_message s1
    = Some (userHandler "bob", s2, [SendMOTD (Some ul)]) ∧
    getUser ascii_lowercase s2 "bob" = Some ul.
Proof.
  destruct (registration_completes ascii_lowercase demo_registry 0%nat 0%nat
              "bob" [] "" "" demo_user_message)
    as (ul & s1 & s2 & name & H1 & H2 & _ & _ & Hg);
    [by vm_compute | simpl; lia | reflexivity | simpl; lia | by vm_compute |].
  exists ul, s1, s2. split; [exact H1|]. split; [exact H2 | exact Hg].
Defined.

Lemma webhook_labels_listed_witness :
  ∃ shown,
    shown ≡ₚ map_to_list (delete "alertname" (delete "severity" demo_labels)) ∧
    web.collect_labels (map_to_list demo_labels) []
    = map (λ kv, kv.1 +:+ "=" +:+ kv.2) shown.
Proof.
  destruct (webhook_labels_listed demo_labels (map_to_list demo_labels)
              (Permutation_refl _))
    as (shown & Hp & _ & H).
  exists shown. split; [exact Hp | exact H].
Defined.


Lemma web_webhook_outcome_witness :
  ∃ c, auth.Caps c = ["#alerts"] ∧ auth.Name c = "prometheus".
Proof.
  destruct (proj1 (web_webhook_outcome (api.alertManagerMessage unit)
              (api.Status unit) (api.GroupLabels unit) (api.CommonLabels unit)
              (api.CommonAnnotations unit) (api.ExternalURL unit)
              string demo_execute bool true
              (Some (web.CallerPointer (Some demo_caller))) (inl demo_alert)
              [] (inl "[firing] ") (inl "DiskFull")
              0%Z demo_save _ eq_refl) _ (or_introl eq_refl))
    as (c & msg & tt & ct & title & content & Hc & _ & _ & _ & _ & _
        & Hcaps & Hfrom & _).
  exists c. split; [exact Hcaps | symmetry; exact Hfrom].
Defined.

Lemma web_webhook_panics_witness :
  web.webhookAlertManager (api.alertManagerMessage unit)
    (api.Status unit) (api.GroupLabels unit) (api.CommonLabels unit)
    (api.CommonAnnotations unit) (api.ExternalURL unit)
    string demo_execute bool true
    (Some web.OtherValue) (inl demo_alert) [] (inl "") (inl "") 0%Z demo_save
  = None.
Proof.
  apply (proj2 (web_webhook_panics (api.alertManagerMessage unit)
                  (api.Status unit) (api.GroupLabels unit)
                  (api.CommonLabels unit) (api.CommonAnnotations unit)
                  (api.ExternalURL unit) string demo_execute bool true
                  (Some web.OtherValue) (inl demo_alert) [] (inl "") (inl "")
                  0%Z demo_save)).
  by left.
Defined.
